(** * Julia-set escape-time renderer (run-gen-fractal-julia.py)

    A shallow embedding of [FunctionList], [FractalJulia] and the
    command-line entry point, and the properties of the renderer stated
    against it.

    Numbers.  Python [int]s are [Z].  Python [float]s are modelled by the
    rationals [Q]: this is the exact-arithmetic reading of the program
    (no rounding, no infinities, no NaN).  [/] on two ints is Python 3 true
    division, hence a rational.  Every concrete configuration evaluated
    below uses dyadic rationals of small magnitude only, for which binary
    floating point is exact as well.
    Not modelled: the rounding of floats, the OverflowError of converting
    an int beyond the float range, and the limits numpy puts on the size
    of an array.

    Control.  [generate] can raise; the model returns a [res]: either the
    value or the Python exception that aborts the call. *)

From Stdlib Require Import ZArith QArith Qabs Qround Qminmax Lia Lqa String.
From stdpp Require Import base list list_numbers.

Local Open Scope Z_scope.

(** ** Python values and exceptions *)

Inductive exn : Type :=
| ValueError   (* np.zeros with a negative dimension *)
| IndexError   (* numpy index out of bounds for an axis *)
| NameError    (* local variable read before assignment *)
| TypeError    (* subscripting None *)
| ZeroDivisionError.

Inductive res (A : Type) : Type :=
| Ok (a : A)
| Raise (e : exn).
Arguments Ok {A} a.
Arguments Raise {A} e.

Definition bind {A B} (m : res A) (k : A -> res B) : res B :=
  match m with
  | Ok a => k a
  | Raise e => Raise e
  end.

Notation "'let*' x ':=' m 'in' k" := (bind m (fun x => k))
  (at level 10, x name, m at level 100, k at level 200).

(** [for v in xs: s = body v s], stopping at the first exception. *)
Fixpoint for_each {S X} (body : X -> S -> res S) (xs : list X) (s : S) : res S :=
  match xs with
  | [] => Ok s
  | v :: rest => let* s' := body v s in for_each body rest s'
  end.

(** ** Numbers *)

(** [a > b] on numbers. *)
Definition Qgtb (a b : Q) : bool := negb (Qle_bool a b).

(** Python's [a % b] on floats for a positive [b]: the result has the sign
    of [b], i.e. [a - b * floor (a / b)]. *)
Definition Qmod (a b : Q) : Q := (a - b * inject_Z (Qfloor (a / b)))%Q.

(** [a / b]: true division, which raises on a zero divisor. *)
Definition py_div (a b : Q) : res Q :=
  if Qeq_bool b 0 then Raise ZeroDivisionError else Ok (a / b)%Q.

(** [range(a, b)]. *)
Definition range (a b : Z) : list Z := seqZ a (b - a).

(** [int(q)]: truncation toward zero. *)
Definition Qint (q : Q) : Z := Z.quot (Qnum q) (Zpos (Qden q)).

(** ** Complex numbers *)

Record complex : Type := Complex { real : Q; imag : Q }.

Definition Cadd (a b : complex) : complex :=
  Complex (real a + real b)%Q (imag a + imag b)%Q.

Definition Cmul (a b : complex) : complex :=
  Complex (real a * real b - imag a * imag b)%Q
          (real a * imag b + imag a * real b)%Q.

Definition Ceq (a b : complex) : Prop :=
  (real a == real b)%Q /\ (imag a == imag b)%Q.

(** The complex conjugate. *)
Definition Cconj (z : complex) : complex := Complex (real z) (- imag z).

(** ** class FunctionList *)

Module FunctionList.

Definition func_z2pc (z c : complex) : complex := Cadd (Cmul z z) c.

Definition func_z3pc (z c : complex) : complex := Cadd (Cmul (Cmul z z) z) c.

End FunctionList.

(** ** class FractalJulia *)

(** A colour is the three-element list built by a colour scheme. *)
Record rgb : Type := Rgb { c0 : Q; c1 : Q; c2 : Q }.

Definition rgb_eq (a b : rgb) : Prop :=
  (c0 a == c0 b)%Q /\ (c1 a == c1 b)%Q /\ (c2 a == c2 b)%Q.

(** What a call of [__generate_color__] evaluates to. *)
Inductive pyval : Type :=
| PyNone
| PyList (c : rgb).

(** The attributes set by [__init__], stored as given: no check is made. *)
Record FractalJulia : Type := {
  image_width : Z;
  image_height : Z;
  minx : Q;
  miny : Q;
  maxx : Q;
  maxy : Q;
  iterations : Z;
  constant : complex;
  function : complex -> complex -> complex;
  zmax : Q;
  scheme : Z
}.

Definition __init__ (image_size : Z * Z) (grid_range : Q * Q * Q * Q)
    (function : complex -> complex -> complex) (constant : complex)
    (iterations : Z) (zmax : Q) (color_scheme : Z) : FractalJulia :=
  let '(x_min, y_min, x_max, y_max) := grid_range in
  {| image_width := fst image_size;
     image_height := snd image_size;
     minx := x_min; miny := y_min; maxx := x_max; maxy := y_max;
     iterations := iterations;
     constant := constant;
     function := function;
     zmax := zmax;
     scheme := color_scheme |}.

Definition __generate_color_scheme1__ (value : Z) : rgb :=
  let h := value mod 360 in
  let X := (1 - Qabs (Qmod (inject_Z h / 60) 2 - 1))%Q in
  if (0 <=? h) && (h <? 60) then Rgb 1 X 0
  else if (60 <=? h) && (h <? 120) then Rgb X 1 0
  else if (120 <=? h) && (h <? 180) then Rgb 0 1 X
  else if (180 <=? h) && (h <? 240) then Rgb 0 X 1
  else if (240 <=? h) && (h <? 300) then Rgb X 0 1
  else if (300 <=? h) && (h <? 360) then Rgb 1 0 X
  else Rgb 0 0 0.

Definition __generate_color_scheme2__ (self : FractalJulia) (value : Z) : res rgb :=
  let* q := py_div (inject_Z (value + 1)) (inject_Z (iterations self)) in
  let i := (q * 2)%Q in
  let i := if Qgtb i 1 then 1%Q else i in
  Ok (Rgb i i i).

(** The last branch calls scheme 2 and drops its result: the call
    evaluates to [None]. *)
Definition __generate_color__ (self : FractalJulia) (value : Z) : res pyval :=
  if scheme self =? 1 then Ok (PyList (__generate_color_scheme1__ value))
  else if scheme self =? 2 then
    let* c := __generate_color_scheme2__ self value in Ok (PyList c)
  else
    let* _ := __generate_color_scheme2__ self value in Ok PyNone.

(** *** The image buffer

    A numpy array of shape [(n0, n1, n2)] is a list of [n0] lists of [n1]
    lists of [n2] channel values. *)

Abbreviation ndarray := (list (list (list Z))).

(** [np.zeros((n0, n1, n2), dtype=np.uint8)]. *)
Definition np_zeros (n0 n1 n2 : Z) : res ndarray :=
  if (n0 <? 0) || (n1 <? 0) || (n2 <? 0) then Raise ValueError
  else Ok (replicate (Z.to_nat n0)
             (replicate (Z.to_nat n1) (replicate (Z.to_nat n2) 0))).

(** An index along an axis of length [len]: a negative index counts from
    the end, anything outside [-len, len) is an [IndexError]. *)
Definition np_index (len : nat) (i : Z) : res nat :=
  if (0 <=? i) && (i <? Z.of_nat len) then Ok (Z.to_nat i)
  else if (- Z.of_nat len <=? i) && (i <? 0) then Ok (Z.to_nat (Z.of_nat len + i))
  else Raise IndexError.

Definition axis_get {A} (l : list A) (i : Z) : res A :=
  let* n := np_index (length l) i in
  match l !! n with
  | Some a => Ok a
  | None => Raise IndexError
  end.

Definition axis_set {A} (l : list A) (i : Z) (a : A) : res (list A) :=
  let* n := np_index (length l) i in
  Ok (<[n := a]> l).

(** [image[i, j, k]]. *)
Definition getitem (img : ndarray) (i j k : Z) : res Z :=
  let* plane := axis_get img i in
  let* cell := axis_get plane j in
  axis_get cell k.

(** [image[i, j, k] = v] for a Python int [v]; the uint8 cell keeps the
    low eight bits. *)
Definition setitem (img : ndarray) (i j k : Z) (v : Z) : res ndarray :=
  let* plane := axis_get img i in
  let* cell := axis_get plane j in
  let* cell' := axis_set cell k (v mod 256) in
  let* plane' := axis_set plane j cell' in
  axis_set img i plane'.

(** *** generate *)

(** The local variable [color]: unbound, or bound to a value. *)
Definition local : Type := option pyval.

(** [color[k]], for [k] one of 0, 1, 2. *)
Definition color_item (color : local) (k : rgb -> Q) : res Q :=
  match color with
  | None => Raise NameError
  | Some PyNone => Raise TypeError
  | Some (PyList c) => Ok (k c)
  end.

(** [lo + i * (hi - lo) / n], the shape of both grid coordinates. *)
Definition grid_coord (lo hi : Q) (i n : Z) : res Q :=
  let* q := py_div (inject_Z i * (hi - lo))%Q (inject_Z n) in
  Ok (lo + q)%Q.

(** [(a.real - z.real)^2 + (a.imag - z.imag)^2], written with products. *)
Definition sqdisp (a z : complex) : Q :=
  ((real a - real z) * (real a - real z)
   + (imag a - imag z) * (imag a - imag z))%Q.

(** The [for c in range(1, iterations + 1)] loop with its [break]; [cs]
    holds the values of [c] still to run.  It returns [color] as the loop
    leaves it. *)
Fixpoint escape_loop (self : FractalJulia) (z temp1 : complex) (color : local)
    (cs : list Z) : res local :=
  match cs with
  | [] => Ok color
  | c :: rest =>
      let temp1 := function self temp1 (constant self) in
      let rad := sqdisp temp1 z in
      if Qgtb rad (zmax self) then
        let* v := __generate_color__ self c in Ok (Some v)
      else escape_loop self z temp1 color rest
  end.

(** The body of [for y in range(0, image_height)]; the loops carry the
    buffer and the local [color]. *)
Definition pixel_body (self : FractalJulia) (x : Z) (z_r : Q) (y : Z)
    (st : ndarray * local) : res (ndarray * local) :=
  let '(image, color) := st in
  let* z_i := grid_coord (miny self) (maxy self) y (image_height self) in
  let z := Complex z_r z_i in
  let temp1 := z in
  let* color := escape_loop self z temp1 color (range 1 (iterations self + 1)) in
  let* green := getitem image x y 1 in
  if green =? 0 then
    let* v0 := color_item color c0 in
    let* image := setitem image x y 0 (Qint (v0 * 255)) in
    let* v1 := color_item color c1 in
    let* image := setitem image x y 1 (Qint (v1 * 255)) in
    let* v2 := color_item color c2 in
    let* image := setitem image x y 2 (Qint (v2 * 255)) in
    Ok (image, color)
  else Ok (image, color).

(** The body of [for x in range(0, image_width)]. *)
Definition column_body (self : FractalJulia) (x : Z) (st : ndarray * local)
    : res (ndarray * local) :=
  let* z_r := grid_coord (minx self) (maxx self) x (image_width self) in
  for_each (pixel_body self x z_r) (range 0 (image_height self)) st.

(** [generate].  The progress bar ([tqdm]) does not touch the result and
    is left out. *)
Definition generate (self : FractalJulia) : res ndarray :=
  let* image := np_zeros (image_height self) (image_width self) 3 in
  let* st := for_each (column_body self) (range 0 (image_width self)) (image, None) in
  Ok (fst st).

(** ** The command-line entry point ([if __name__ == "__main__"]) *)

(** The parsed arguments, as [argparse] hands them over. *)
Record Args : Type := {
  a_size : Z * Z;
  a_grid : Q * Q * Q * Q;
  a_function : Z;
  a_constant : Q * Q;
  a_iterations : Z;
  a_threshold : Z;
  a_palette : Z;
  a_output : string
}.

(** How the script ends: [sys.exit()] after a message, the image handed
    to [cv2.imwrite], or an exception nobody catches. *)
Inductive outcome : Type :=
| Exited (printed : string)
| Wrote (path : string) (img : ndarray)
| Uncaught (e : exn).

Definition main (args : Args) : outcome :=
  if negb (a_function args =? 1) && negb (a_function args =? 2) then
    Exited "[ERROR]: Incorrect value for the function ID!"
  else if negb (a_palette args =? 1) && negb (a_palette args =? 2) then
    Exited "[ERROR]: Incorrect value for the palette ID!"
  else
    let f :=
      if a_function args =? 1 then Some FunctionList.func_z2pc
      else if a_function args =? 2 then Some FunctionList.func_z3pc
      else None in
    let c := Complex (fst (a_constant args)) (snd (a_constant args)) in
    match f with
    | None => Uncaught TypeError (* [f] stays [None]; excluded by the first check *)
    | Some f =>
        let g := __init__ (a_size args) (a_grid args) f c (a_iterations args)
                   (inject_Z (a_threshold args)) (a_palette args) in
        match generate g with
        | Ok img => Wrote (a_output args) img
        | Raise e => Uncaught e
        end
    end.

(** ** Vocabulary of the properties *)

(** The complex sample of pixel [(x, y)]: [z_r], [z_i] and
    [complex(z_r, z_i)] of [generate]. *)
Definition sample (self : FractalJulia) (x y : Z) : res complex :=
  let* z_r := grid_coord (minx self) (maxx self) x (image_width self) in
  let* z_i := grid_coord (miny self) (maxy self) y (image_height self) in
  Ok (Complex z_r z_i).

(** The pixels in the order the two loops visit them. *)
Definition scan (self : FractalJulia) : list (Z * Z) :=
  x ← range 0 (image_width self);
  (fun y => (x, y)) <$> range 0 (image_height self).

(** One pixel of the double loop, from the pixel's indices alone. *)
Definition pixel_step (self : FractalJulia) (p : Z * Z) (st : ndarray * local)
    : res (ndarray * local) :=
  let* z_r := grid_coord (minx self) (maxx self) (fst p) (image_width self) in
  pixel_body self (fst p) z_r (snd p) st.

(** What one pixel does to the local [color]. *)
Definition color_step (self : FractalJulia) (p : Z * Z) (color : local) : res local :=
  let* z := sample self (fst p) (snd p) in
  escape_loop self z z color (range 1 (iterations self + 1)).

(** The [n]-th iterate of [z -> function(z, constant)] from [z0]. *)
Definition iterate (self : FractalJulia) (z0 : complex) (n : nat) : complex :=
  Nat.iter n (fun t => function self t (constant self)) z0.

(** The squared displacement of the [c]-th iterate from [z0] is strictly
    greater than the threshold. *)
Definition exceeds (self : FractalJulia) (z0 : complex) (c : Z) : bool :=
  Qgtb (sqdisp (iterate self z0 (Z.to_nat c)) z0) (zmax self).

(** The escape time in the words of the specification: the first count
    from 1 to [iterations] at which the displacement exceeds the
    threshold, if there is one. *)
Definition escape_time (self : FractalJulia) (z0 : complex) : option Z :=
  List.find (exceeds self z0) (range 1 (iterations self + 1)).

(** The three stored channels of a colour: [int(v * 255)] in a uint8. *)
Definition quantize (c : rgb) : list Z :=
  [Qint (c0 c * 255) mod 256; Qint (c1 c * 255) mod 256; Qint (c2 c * 255) mod 256].

(** [image[x, y]], the cell of three channels. *)
Definition cell (img : ndarray) (x y : Z) : res (list Z) :=
  let* plane := axis_get img x in axis_get plane y.

Definition rgb_le (a b : rgb) : Prop :=
  (c0 a <= c0 b)%Q /\ (c1 a <= c1 b)%Q /\ (c2 a <= c2 b)%Q.

(** All three channels lie in [0, 1]. *)
Definition unit_rgb (v : rgb) : Prop :=
  (0 <= c0 v <= 1 /\ 0 <= c1 v <= 1 /\ 0 <= c2 v <= 1)%Q.

(** The configurations the specification calls malformed. *)
Definition malformed (self : FractalJulia) : Prop :=
  image_width self <= 0 \/ image_height self <= 0 \/
  (maxx self <= minx self)%Q \/ (maxy self <= miny self)%Q \/
  iterations self < 1 \/ (scheme self <> 1 /\ scheme self <> 2).

(** The configurations the specification calls valid, for the two
    functions of [FunctionList]. *)
Definition valid (self : FractalJulia) : Prop :=
  0 < image_width self /\ 0 < image_height self /\
  (minx self < maxx self)%Q /\ (miny self < maxy self)%Q /\
  1 <= iterations self /\ (0 < zmax self)%Q /\
  (scheme self = 1 \/ scheme self = 2) /\
  (function self = FunctionList.func_z2pc \/ function self = FunctionList.func_z3pc).

(** Lines 101-104 of [generate]: the guarded write of [color] into the
    cell [image[x, y]]. *)
Definition guarded_write (image : ndarray) (x y : Z) (color : local) : res ndarray :=
  let* green := getitem image x y 1 in
  if green =? 0 then
    let* v0 := color_item color c0 in
    let* image := setitem image x y 0 (Qint (v0 * 255)) in
    let* v1 := color_item color c1 in
    let* image := setitem image x y 1 (Qint (v1 * 255)) in
    let* v2 := color_item color c2 in
    let* image := setitem image x y 2 (Qint (v2 * 255)) in
    Ok image
  else Ok image.

(** An array of shape [(n0, n1, 3)]. *)
Definition shaped (n0 n1 : Z) (img : ndarray) : Prop :=
  Z.of_nat (length img) = n0 /\
  Forall (fun plane : list (list Z) =>
            Z.of_nat (length plane) = n1 /\
            Forall (fun cl : list Z => length cl = 3%nat) plane) img.

(** The cell at [(x, y)], for indices that are not negative. *)
Definition at_cell (img : ndarray) (x y : Z) : option (list Z) :=
  plane ← img !! Z.to_nat x; plane !! Z.to_nat y.

(** The local [color] after the pixels [ps] have run, from [color]. *)
Definition color_after (self : FractalJulia) (ps : list (Z * Z)) (color : local)
    : res local :=
  for_each (color_step self) ps color.

(** ** Configurations evaluated below *)

Definition origin : complex := Complex 0 0.

(** 1 x 1 image whose only sample is 0, quadratic map, constant 0. *)
Definition cfg_fixed_point : FractalJulia :=
  __init__ (1, 1) (0, 0, 1, 1)%Q FunctionList.func_z2pc origin 5 4 2.

(** 2 wide, 1 high; every sample escapes at the first iteration. *)
Definition cfg_wide : FractalJulia :=
  __init__ (2, 1) (0, 0, 1, 1)%Q FunctionList.func_z2pc (Complex 3 0) 1 4 2.

(** 1 wide, 2 high; every sample escapes at the first iteration. *)
Definition cfg_tall : FractalJulia :=
  __init__ (1, 2) (0, 0, 1, 1)%Q FunctionList.func_z2pc (Complex 3 0) 1 4 2.

(** 1 x 1 image with inverted grid bounds. *)
Definition cfg_inverted : FractalJulia :=
  __init__ (1, 1) (1, 1, 0, 0)%Q FunctionList.func_z2pc (Complex 3 0) 1 4 2.

(** 2 x 2 image on [-2, 2) x [-2, 2), quadratic map, constant 0: the last
    pixel samples 0 and never escapes, the three before it escape. *)
Definition cfg_carry : FractalJulia :=
  __init__ (2, 2) (-2, -2, 2, 2)%Q FunctionList.func_z2pc origin 3 4 1.

(** 1 x 1 image whose sample escapes at once, colour scheme 2. *)
Definition cfg_unit : FractalJulia :=
  __init__ (1, 1) (0, 0, 1, 1)%Q FunctionList.func_z2pc (Complex 3 0) 1 4 2.

(** [cfg_carry] with threshold 20 instead of 4. *)
Definition cfg_carry_high : FractalJulia :=
  __init__ (2, 2) (-2, -2, 2, 2)%Q FunctionList.func_z2pc origin 3 20 1.

(** [cfg_carry] with iteration cap 5 instead of 3. *)
Definition cfg_carry_long : FractalJulia :=
  __init__ (2, 2) (-2, -2, 2, 2)%Q FunctionList.func_z2pc origin 5 4 1.


(** * Properties *)

(** ** Numbers *)

Lemma Qgtb_true (a b : Q) : Qgtb a b = true <-> (b < a)%Q.
Proof.
  unfold Qgtb. rewrite negb_true_iff. split.
  - intros E. apply Qnot_le_lt. intros L. apply Qle_bool_iff in L. congruence.
  - intros L. destruct (Qle_bool a b) eqn:E; [|reflexivity].
    apply Qle_bool_iff in E. exfalso. exact (Qlt_not_le _ _ L E).
Qed.

Lemma Qgtb_false (a b : Q) : Qgtb a b = false <-> (a <= b)%Q.
Proof.
  unfold Qgtb. rewrite negb_false_iff. apply Qle_bool_iff.
Qed.

Lemma inject_Z_pos (n : Z) : 0 < n -> (0 < inject_Z n)%Q.
Proof. intros H. unfold Qlt. simpl. lia. Qed.

Lemma py_div_pos (a : Q) (n : Z) :
  0 < n -> py_div a (inject_Z n) = Ok (a / inject_Z n)%Q.
Proof.
  intros H. unfold py_div.
  destruct (Qeq_bool (inject_Z n) 0) eqn:E; [|reflexivity].
  apply Qeq_bool_eq in E. unfold Qeq in E. simpl in E. lia.
Qed.

Lemma py_div_zero (a : Q) : py_div a (inject_Z 0) = Raise ZeroDivisionError.
Proof. reflexivity. Qed.

(** ** Colour scheme 1 *)


(** ** Colour scheme 2 *)

(** The ramp before the cap: [(c + 1) / N * 2]. *)
Lemma scheme2_value (self : FractalJulia) (c : Z) :
  1 <= iterations self ->
  let i := (inject_Z (c + 1) / inject_Z (iterations self) * 2)%Q in
  __generate_color_scheme2__ self c
  = Ok (let j := if Qgtb i 1 then 1%Q else i in Rgb j j j).
Proof.
  intros HN. unfold __generate_color_scheme2__.
  rewrite py_div_pos by lia. reflexivity.
Qed.

Lemma cap_is_min (i : Q) : ((if Qgtb i 1 then 1 else i) == Qmin 1 i)%Q.
Proof.
  destruct (Qgtb i 1) eqn:E.
  - apply Qgtb_true in E. symmetry. apply Q.min_l. apply Qlt_le_weak, E.
  - apply Qgtb_false in E. symmetry. apply Q.min_r. exact E.
Qed.

Lemma ramp_mono (n c c' : Z) :
  1 <= n -> c <= c' ->
  (inject_Z (c + 1) / inject_Z n * 2 <= inject_Z (c' + 1) / inject_Z n * 2)%Q.
Proof.
  intros Hn Hc.
  apply Qmult_le_compat_r; [|discriminate].
  unfold Qdiv. apply Qmult_le_compat_r.
  - unfold Qle. simpl. lia.
  - apply Qlt_le_weak, Qinv_lt_0_compat, inject_Z_pos. lia.
Qed.

(** C7. For N >= 1 scheme 2 maps c to (i, i, i) with
    i = min(1, (c+1)/N*2); it is non-decreasing in c and is (1,1,1) as
    soon as c + 1 >= N / 2. *)
Theorem scheme2_ramp (self : FractalJulia) :
  1 <= iterations self ->
  let N := iterations self in
  (forall c, exists i,
      __generate_color_scheme2__ self c = Ok (Rgb i i i) /\
      (i == Qmin 1 (inject_Z (c + 1) / inject_Z N * 2))%Q) /\
  (forall c c', c <= c' -> exists col col',
      __generate_color_scheme2__ self c = Ok col /\
      __generate_color_scheme2__ self c' = Ok col' /\
      rgb_le col col') /\
  (forall c, (inject_Z N / 2 <= inject_Z (c + 1))%Q -> exists col,
      __generate_color_scheme2__ self c = Ok col /\ rgb_eq col (Rgb 1 1 1)).
Proof.
  intros HN N. repeat split.
  - intros c. eexists. split; [apply scheme2_value, HN|]. apply cap_is_min.
  - intros c c' Hc. do 2 eexists.
    split; [apply scheme2_value, HN|]. split; [apply scheme2_value, HN|].
    assert (L : ((if Qgtb (inject_Z (c + 1) / inject_Z N * 2) 1 then 1
                  else inject_Z (c + 1) / inject_Z N * 2)
                 <= (if Qgtb (inject_Z (c' + 1) / inject_Z N * 2) 1 then 1
                     else inject_Z (c' + 1) / inject_Z N * 2))%Q).
    { rewrite !cap_is_min. apply Q.min_le_compat_l. apply ramp_mono; assumption. }
    repeat split; exact L.
  - intros c Hc. eexists. split; [apply scheme2_value, HN|].
    assert (E : ((if Qgtb (inject_Z (c + 1) / inject_Z N * 2) 1 then 1
                  else inject_Z (c + 1) / inject_Z N * 2) == 1)%Q).
    { rewrite cap_is_min. apply Q.min_l.
      assert (P : (0 < inject_Z N)%Q) by (apply inject_Z_pos; subst N; lia).
      assert (D : (1 # 2 <= inject_Z (c + 1) / inject_Z N)%Q).
      { apply Qle_shift_div_l; [exact P|].
        eapply Qle_trans; [|exact Hc]. unfold Qdiv.
        rewrite Qmult_comm. apply Qle_refl. }
      apply (Qmult_le_compat_r _ _ 2) in D; [|discriminate].
      eapply Qle_trans; [|exact D]. discriminate. }
    repeat split; exact E.
Qed.

Lemma scheme2_ramp_witness :
  1 <= iterations cfg_fixed_point /\
  exists col, __generate_color_scheme2__ cfg_fixed_point 2 = Ok col /\
              rgb_eq col (Rgb 1 1 1).
Proof.
  split; [vm_compute; discriminate|].
  apply (scheme2_ramp cfg_fixed_point); vm_compute; discriminate.
Defined.

(** ** Coordinate mapping *)

Lemma grid_coord_bounds (lo hi : Q) (i n : Z) :
  0 <= i < n -> (lo < hi)%Q ->
  grid_coord lo hi i n = Ok (lo + inject_Z i * (hi - lo) / inject_Z n)%Q /\
  (lo <= lo + inject_Z i * (hi - lo) / inject_Z n)%Q /\
  (lo + inject_Z i * (hi - lo) / inject_Z n < hi)%Q.
Proof.
  intros Hi Hlt.
  assert (Pn : (0 < inject_Z n)%Q) by (apply inject_Z_pos; lia).
  assert (Pi : (0 <= inject_Z i)%Q) by (unfold Qle; simpl; lia).
  assert (Li : (inject_Z i < inject_Z n)%Q) by (rewrite <- Zlt_Qlt; lia).
  split; [unfold grid_coord; rewrite py_div_pos by lia; reflexivity|].
  assert (A : (0 <= inject_Z i * (hi - lo) / inject_Z n)%Q).
  { apply Qle_shift_div_l; [exact Pn|]. nra. }
  assert (B : (inject_Z i * (hi - lo) / inject_Z n < hi - lo)%Q).
  { apply Qlt_shift_div_r; [exact Pn|]. nra. }
  split; lra.
Qed.

(** C5. For x in [0,W) and y in [0,H) the sample is
    (minx + x*(maxx-minx)/W, miny + y*(maxy-miny)/H), and with minx < maxx
    and miny < maxy it lies in [minx, maxx) x [miny, maxy). *)
Theorem sample_in_grid (self : FractalJulia) (x y : Z) :
  0 <= x < image_width self -> 0 <= y < image_height self ->
  (minx self < maxx self)%Q -> (miny self < maxy self)%Q ->
  let z_re := (minx self + inject_Z x * (maxx self - minx self)
                            / inject_Z (image_width self))%Q in
  let z_im := (miny self + inject_Z y * (maxy self - miny self)
                            / inject_Z (image_height self))%Q in
  sample self x y = Ok (Complex z_re z_im) /\
  (minx self <= z_re)%Q /\ (z_re < maxx self)%Q /\
  (miny self <= z_im)%Q /\ (z_im < maxy self)%Q.
Proof.
  intros Hx Hy Lx Ly z_re z_im.
  destruct (grid_coord_bounds (minx self) (maxx self) x (image_width self) Hx Lx)
    as (Ex & Ax & Bx).
  destruct (grid_coord_bounds (miny self) (maxy self) y (image_height self) Hy Ly)
    as (Ey & Ay & By).
  split; [|tauto].
  unfold sample. rewrite Ex. simpl. rewrite Ey. reflexivity.
Qed.

Lemma sample_in_grid_witness :
  exists z, sample cfg_carry 1 1 = Ok z /\
            (minx cfg_carry <= real z)%Q /\ (real z < maxx cfg_carry)%Q.
Proof.
  destruct (sample_in_grid cfg_carry 1 1) as (E & A & B & _);
    [vm_compute; split; congruence | vm_compute; split; congruence
    | reflexivity | reflexivity |].
  eexists. split; [exact E|]. split; [exact A | exact B].
Defined.

(** ** The escape-time loop *)

Lemma find_seqZ_Some (P : Z -> bool) (m : nat) : forall k c,
  List.find P (seqZ k (Z.of_nat m)) = Some c <->
  (k <= c < k + Z.of_nat m /\ P c = true /\
   forall c', k <= c' < c -> P c' = false).
Proof.
  induction m as [|m IH]; intros k c.
  - rewrite seqZ_nil by lia. simpl. split; [discriminate|lia].
  - rewrite seqZ_cons by lia.
    replace (Z.pred (Z.of_nat (S m))) with (Z.of_nat m) by lia.
    simpl. destruct (P k) eqn:E.
    + split.
      * intros [= <-]. split; [lia|]. split; [exact E|]. intros c' ?. lia.
      * intros (Hr & Hc & Hb). f_equal.
        destruct (Z.eq_dec k c) as [|N]; [assumption|].
        specialize (Hb k ltac:(lia)). congruence.
    + rewrite IH. split.
      * intros (Hr & Hc & Hb). split; [lia|]. split; [exact Hc|].
        intros c' Hc'. destruct (Z.eq_dec c' k) as [->|N]; [exact E|].
        apply Hb. lia.
      * intros (Hr & Hc & Hb). split.
        { destruct (Z.eq_dec k c) as [->|N]; [congruence|lia]. }
        split; [exact Hc|]. intros c' Hc'. apply Hb. lia.
Qed.

Lemma find_seqZ_None (P : Z -> bool) (k n : Z) :
  List.find P (seqZ k n) = None <-> forall c, k <= c < k + n -> P c = false.
Proof.
  split.
  - intros H c Hc. apply (find_none _ _ H).
    apply list_elem_of_In, elem_of_seqZ. exact Hc.
  - intros H. destruct (List.find P (seqZ k n)) as [c|] eqn:E; [|reflexivity].
    apply find_some in E as [I Pc].
    apply list_elem_of_In, elem_of_seqZ in I. rewrite H in Pc by exact I.
    discriminate.
Qed.

Lemma iterate_S (self : FractalJulia) (z : complex) (n : nat) :
  iterate self z (S n) = function self (iterate self z n) (constant self).
Proof. reflexivity. Qed.

(** The loop over the counts [k, k+1, ...], entered with the iterate
    number [k - 1], stops at the first count that exceeds. *)
Lemma escape_loop_find (self : FractalJulia) (z : complex) (color : local)
    (m : nat) : forall k,
  1 <= k ->
  escape_loop self z (iterate self z (Z.to_nat (k - 1))) color (seqZ k (Z.of_nat m))
  = match List.find (exceeds self z) (seqZ k (Z.of_nat m)) with
    | Some c => let* v := __generate_color__ self c in Ok (Some v)
    | None => Ok color
    end.
Proof.
  induction m as [|m IH]; intros k Hk.
  - rewrite seqZ_nil by lia. reflexivity.
  - rewrite seqZ_cons by lia.
    replace (Z.pred (Z.of_nat (S m))) with (Z.of_nat m) by lia.
    simpl. rewrite <- iterate_S.
    replace (S (Z.to_nat (k - 1))) with (Z.to_nat k) by lia.
    unfold exceeds at 1.
    destruct (Qgtb (sqdisp (iterate self z (Z.to_nat k)) z) (zmax self));
      [reflexivity|].
    specialize (IH (Z.succ k) ltac:(lia)).
    replace (Z.succ k - 1) with k in IH by lia. exact IH.
Qed.

Lemma range_1_N (n : Z) : range 1 (n + 1) = seqZ 1 (Z.of_nat (Z.to_nat n)).
Proof.
  unfold range. replace (n + 1 - 1) with n by lia.
  destruct (Z_le_gt_dec 0 n).
  - rewrite Z2Nat.id by lia. reflexivity.
  - rewrite !seqZ_nil by lia. reflexivity.
Qed.

Lemma escape_loop_escape_time (self : FractalJulia) (z : complex) (color : local) :
  escape_loop self z z color (range 1 (iterations self + 1))
  = match escape_time self z with
    | Some c => let* v := __generate_color__ self c in Ok (Some v)
    | None => Ok color
    end.
Proof.
  unfold escape_time. rewrite range_1_N.
  exact (escape_loop_find self z color _ 1 ltac:(lia)).
Qed.

Lemma escape_time_Some (self : FractalJulia) (z : complex) (c : Z) :
  escape_time self z = Some c <->
  (1 <= c <= iterations self /\ exceeds self z c = true /\
   forall c', 1 <= c' < c -> exceeds self z c' = false).
Proof.
  unfold escape_time. rewrite range_1_N, find_seqZ_Some.
  split; intros (Hr & Hc & Hb); (split; [lia|split; assumption]).
Qed.

Lemma escape_time_None (self : FractalJulia) (z : complex) :
  escape_time self z = None <->
  forall c, 1 <= c <= iterations self -> exceeds self z c = false.
Proof.
  unfold escape_time, range. rewrite find_seqZ_None.
  split; intros H c Hc; apply H; lia.
Qed.


(** ** The fixed point of the quadratic map *)

Lemma func_z2pc_origin (z c : complex) :
  Ceq z origin -> Ceq c origin -> Ceq (FunctionList.func_z2pc z c) origin.
Proof.
  intros [Zr Zi] [Cr Ci]. simpl in *. split; simpl.
  - rewrite Zr, Zi, Cr. reflexivity.
  - rewrite Zr, Zi, Ci. reflexivity.
Qed.

Lemma sqdisp_origin (a z : complex) :
  Ceq a origin -> Ceq z origin -> (sqdisp a z == 0)%Q.
Proof.
  intros [Ar Ai] [Zr Zi]. simpl in *. unfold sqdisp.
  rewrite Ar, Ai, Zr, Zi. reflexivity.
Qed.

(** C9. With the quadratic function and constant 0, a pixel whose sample
    is 0 never escapes, for every iteration cap and every positive
    threshold: each iterate is 0, the squared displacement never exceeds
    the threshold, and the loop leaves [color] untouched. *)
Theorem quadratic_origin_never_escapes (self : FractalJulia) (z0 : complex)
    (color : local) :
  function self = FunctionList.func_z2pc ->
  Ceq (constant self) origin ->
  Ceq z0 origin ->
  (0 < zmax self)%Q ->
  (forall n, Ceq (iterate self z0 n) origin) /\
  (forall n, (sqdisp (iterate self z0 n) z0 <= zmax self)%Q) /\
  escape_time self z0 = None /\
  escape_loop self z0 z0 color (range 1 (iterations self + 1)) = Ok color.
Proof.
  intros Hf Hc Hz HT.
  assert (I : forall n, Ceq (iterate self z0 n) origin).
  { induction n as [|n IH]; [exact Hz|].
    rewrite iterate_S, Hf. apply func_z2pc_origin; assumption. }
  assert (D : forall n, (sqdisp (iterate self z0 n) z0 <= zmax self)%Q).
  { intros n. rewrite (sqdisp_origin _ _ (I n) Hz). apply Qlt_le_weak, HT. }
  assert (E : escape_time self z0 = None).
  { apply escape_time_None. intros c _. apply Qgtb_false, D. }
  repeat split; try apply I; try exact D; try exact E.
  rewrite escape_loop_escape_time, E. reflexivity.
Qed.

Lemma quadratic_origin_never_escapes_witness :
  escape_time cfg_fixed_point origin = None /\
  escape_loop cfg_fixed_point origin origin None
    (range 1 (iterations cfg_fixed_point + 1)) = Ok None.
Proof.
  destruct (quadratic_origin_never_escapes cfg_fixed_point origin None)
    as (_ & _ & E & L);
    [reflexivity | split; reflexivity | split; reflexivity | reflexivity |].
  split; [exact E | exact L].
Defined.

(** ** The two loops as one pass over the pixels *)

Lemma for_each_app {S X} (f : X -> S -> res S) (l1 l2 : list X) (s : S) :
  for_each f (l1 ++ l2) s = let* s' := for_each f l1 s in for_each f l2 s'.
Proof.
  revert s. induction l1 as [|v l1 IH]; intros s; simpl; [reflexivity|].
  destruct (f v s) as [s'|e]; simpl; [apply IH | reflexivity].
Qed.

Lemma for_each_app_Ok {S X} (f : X -> S -> res S) (l1 l2 : list X) (s s2 : S) :
  for_each f (l1 ++ l2) s = Ok s2 ->
  exists s1, for_each f l1 s = Ok s1 /\ for_each f l2 s1 = Ok s2.
Proof.
  rewrite for_each_app. destruct (for_each f l1 s) as [s1|e]; simpl.
  - intros H. exists s1. split; [reflexivity | exact H].
  - discriminate.
Qed.

Lemma grid_coord_Ok (lo hi : Q) (i n : Z) :
  0 < n -> grid_coord lo hi i n = Ok (lo + inject_Z i * (hi - lo) / inject_Z n)%Q.
Proof. intros H. unfold grid_coord. rewrite py_div_pos by lia. reflexivity. Qed.

Lemma pixel_step_unfold (self : FractalJulia) (x y : Z) (img : ndarray)
    (color : local) :
  pixel_step self (x, y) (img, color)
  = let* color' := color_step self (x, y) color in
    let* img' := guarded_write img x y color' in
    Ok (img', color').
Proof.
  unfold pixel_step, pixel_body, color_step, sample, guarded_write.
  cbv zeta. simpl fst. simpl snd.
  destruct (grid_coord (minx self) _ _ _) as [z_r|e]; simpl; [|reflexivity].
  destruct (grid_coord (miny self) _ _ _) as [z_i|e]; simpl; [|reflexivity].
  destruct (escape_loop _ _ _ _ _) as [color'|e]; simpl; [|reflexivity].
  destruct (getitem img x y 1) as [green|e]; simpl; [|reflexivity].
  destruct (green =? 0); [|reflexivity].
  destruct (color_item color' c0) as [v0|e]; simpl; [|reflexivity].
  destruct (setitem img x y 0 _) as [img1|e]; simpl; [|reflexivity].
  destruct (color_item color' c1) as [v1|e]; simpl; [|reflexivity].
  destruct (setitem img1 x y 1 _) as [img2|e]; simpl; [|reflexivity].
  destruct (color_item color' c2) as [v2|e]; simpl; [|reflexivity].
  destruct (setitem img2 x y 2 _) as [img3|e]; simpl; reflexivity.
Qed.

Lemma column_body_flat (self : FractalJulia) (x : Z) (ys : list Z)
    (st : ndarray * local) :
  0 < image_width self ->
  (let* z_r := grid_coord (minx self) (maxx self) x (image_width self) in
   for_each (pixel_body self x z_r) ys st)
  = for_each (pixel_step self) ((fun y => (x, y)) <$> ys) st.
Proof.
  intros HW. rewrite grid_coord_Ok by exact HW. simpl.
  revert st. induction ys as [|y ys IH]; intros st; simpl; [reflexivity|].
  unfold pixel_step at 1. simpl. rewrite grid_coord_Ok by exact HW. simpl.
  destruct (pixel_body _ _ _ _ _) as [st'|e]; simpl; [apply IH | reflexivity].
Qed.

Lemma columns_flat (self : FractalJulia) (xs : list Z) (st : ndarray * local) :
  (xs = [] \/ 0 < image_width self) ->
  for_each (column_body self) xs st
  = for_each (pixel_step self)
      (xs ≫= fun x => (fun y => (x, y)) <$> range 0 (image_height self)) st.
Proof.
  intros [->|HW]; [reflexivity|].
  revert st. induction xs as [|x xs IH]; intros st; [reflexivity|].
  rewrite bind_cons, for_each_app. simpl.
  unfold column_body at 1. rewrite column_body_flat by exact HW.
  destruct (for_each (pixel_step self) _ st) as [st'|e]; simpl;
    [apply IH | reflexivity].
Qed.

(** [generate] runs [pixel_step] over the pixels in scan order. *)
Lemma generate_flat (self : FractalJulia) :
  generate self
  = let* image := np_zeros (image_height self) (image_width self) 3 in
    let* st := for_each (pixel_step self) (scan self) (image, None) in
    Ok (fst st).
Proof.
  unfold generate, scan. destruct (np_zeros _ _ _) as [img|e]; simpl; [|reflexivity].
  rewrite columns_flat; [reflexivity|].
  destruct (Z_le_gt_dec (image_width self) 0).
  - left. unfold range. apply seqZ_nil. lia.
  - right. lia.
Qed.

(** ** Scan order *)

Lemma elem_of_scan (self : FractalJulia) (x y : Z) :
  (x, y) ∈ scan self <-> 0 <= x < image_width self /\ 0 <= y < image_height self.
Proof.
  unfold scan, range. rewrite list_elem_of_bind. split.
  - intros (x' & Hy & Hx). apply elem_of_seqZ in Hx.
    apply list_elem_of_fmap in Hy as (y' & E & Hy). apply elem_of_seqZ in Hy.
    inversion E; subst. lia.
  - intros [Hx Hy]. exists x. split.
    + apply list_elem_of_fmap. exists y. split; [reflexivity|].
      apply elem_of_seqZ. lia.
    + apply elem_of_seqZ. lia.
Qed.

Lemma NoDup_scan (self : FractalJulia) : NoDup (scan self).
Proof.
  unfold scan. apply NoDup_bind.
  - intros x1 x2 p _ _ H1 H2.
    apply list_elem_of_fmap in H1 as (y1 & -> & _).
    apply list_elem_of_fmap in H2 as (y2 & E & _). congruence.
  - intros x _. apply NoDup_fmap_2; [|apply NoDup_seqZ].
    intros y1 y2 E. congruence.
  - apply NoDup_seqZ.
Qed.

(** ** Reading and writing the buffer *)

Lemma np_index_nonneg (len : nat) (i : Z) :
  0 <= i ->
  np_index len i
  = if decide (Z.to_nat i < len)%nat then Ok (Z.to_nat i) else Raise IndexError.
Proof.
  intros Hi. unfold np_index.
  destruct (Z.leb_spec 0 i); [|lia].
  destruct (Z.ltb_spec i (Z.of_nat len)); simpl.
  - rewrite decide_True by lia. reflexivity.
  - rewrite decide_False by lia.
    destruct (Z.ltb_spec i 0); [lia|]. rewrite andb_false_r. reflexivity.
Qed.

Lemma axis_get_nonneg {A} (l : list A) (i : Z) :
  0 <= i ->
  axis_get l i
  = match l !! Z.to_nat i with Some a => Ok a | None => Raise IndexError end.
Proof.
  intros Hi. unfold axis_get. rewrite np_index_nonneg by exact Hi.
  case_decide; simpl; [reflexivity|].
  rewrite (proj2 (lookup_ge_None l (Z.to_nat i))) by lia. reflexivity.
Qed.

Lemma axis_set_nonneg {A} (l : list A) (i : Z) (a : A) :
  0 <= i -> (Z.to_nat i < length l)%nat ->
  axis_set l i a = Ok (<[Z.to_nat i := a]> l).
Proof.
  intros Hi Hl. unfold axis_set. rewrite np_index_nonneg by exact Hi.
  rewrite decide_True by exact Hl. reflexivity.
Qed.

Lemma cell_at_cell (img : ndarray) (x y : Z) :
  0 <= x -> 0 <= y ->
  cell img x y
  = match at_cell img x y with Some cl => Ok cl | None => Raise IndexError end.
Proof.
  intros Hx Hy. unfold cell, at_cell. rewrite axis_get_nonneg by exact Hx.
  destruct (img !! Z.to_nat x) as [plane|]; simpl; [|reflexivity].
  apply axis_get_nonneg, Hy.
Qed.

Lemma getitem_at_cell (img : ndarray) (x y k : Z) :
  0 <= x -> 0 <= y -> 0 <= k ->
  getitem img x y k
  = match at_cell img x y with
    | Some cl => match cl !! Z.to_nat k with
                 | Some v => Ok v
                 | None => Raise IndexError
                 end
    | None => Raise IndexError
    end.
Proof.
  intros Hx Hy Hk. unfold getitem, at_cell. rewrite axis_get_nonneg by exact Hx.
  destruct (img !! Z.to_nat x) as [plane|]; simpl; [|reflexivity].
  rewrite axis_get_nonneg by exact Hy.
  destruct (plane !! Z.to_nat y) as [cl|]; simpl; [|reflexivity].
  apply axis_get_nonneg, Hk.
Qed.

Lemma setitem_at (img : ndarray) (plane : list (list Z)) (cl : list Z)
    (x y k v : Z) :
  0 <= x -> 0 <= y -> 0 <= k ->
  img !! Z.to_nat x = Some plane -> plane !! Z.to_nat y = Some cl ->
  (Z.to_nat k < length cl)%nat ->
  setitem img x y k v
  = Ok (<[Z.to_nat x := <[Z.to_nat y := <[Z.to_nat k := v mod 256]> cl]> plane]> img).
Proof.
  intros Hx Hy Hk Ep Ec Hl. unfold setitem.
  rewrite axis_get_nonneg, Ep by exact Hx. simpl.
  rewrite axis_get_nonneg, Ec by exact Hy. simpl.
  rewrite axis_set_nonneg by assumption. simpl.
  rewrite axis_set_nonneg by (try exact Hy; eapply lookup_lt_Some, Ec). simpl.
  apply axis_set_nonneg; [exact Hx | eapply lookup_lt_Some, Ep].
Qed.

(** The guarded write on a cell whose green channel is zero. *)
Lemma guarded_write_zero (img : ndarray) (plane : list (list Z)) (a b : Z)
    (x y : Z) (color : local) :
  0 <= x -> 0 <= y ->
  img !! Z.to_nat x = Some plane -> plane !! Z.to_nat y = Some [a; 0; b] ->
  guarded_write img x y color
  = match color with
    | None => Raise NameError
    | Some PyNone => Raise TypeError
    | Some (PyList v) =>
        Ok (<[Z.to_nat x := <[Z.to_nat y := quantize v]> plane]> img)
    end.
Proof.
  intros Hx Hy Ep Ec. unfold guarded_write. cbv zeta.
  rewrite getitem_at_cell by lia. unfold at_cell. rewrite Ep. simpl.
  rewrite Ec. simpl.
  destruct color as [[|v]|]; simpl; try reflexivity.
  assert (Lx : (Z.to_nat x < length img)%nat) by (eapply lookup_lt_Some, Ep).
  assert (Ly : (Z.to_nat y < length plane)%nat) by (eapply lookup_lt_Some, Ec).
  rewrite (setitem_at img plane [a; 0; b] x y 0) by (simpl; auto; lia). simpl.
  erewrite (setitem_at _ _ _ x y 1); try lia;
    [| apply list_lookup_insert_eq, Lx
     | apply list_lookup_insert_eq, Ly | simpl; lia ].
  simpl. rewrite !list_insert_insert_eq.
  erewrite (setitem_at _ _ _ x y 2); try lia;
    [| apply list_lookup_insert_eq, Lx
     | apply list_lookup_insert_eq, Ly | simpl; lia ].
  simpl. rewrite !list_insert_insert_eq. reflexivity.
Qed.

Lemma guarded_write_outside (img : ndarray) (x y : Z) (color : local) :
  0 <= x -> 0 <= y -> at_cell img x y = None ->
  guarded_write img x y color = Raise IndexError.
Proof.
  intros Hx Hy E. unfold guarded_write. cbv zeta.
  rewrite getitem_at_cell, E by lia. reflexivity.
Qed.

Lemma at_cell_put_eq (img : ndarray) (plane : list (list Z)) (cl : list Z) (x y : Z) :
  (Z.to_nat x < length img)%nat -> (Z.to_nat y < length plane)%nat ->
  at_cell (<[Z.to_nat x := <[Z.to_nat y := cl]> plane]> img) x y = Some cl.
Proof.
  intros Lx Ly. unfold at_cell. rewrite list_lookup_insert_eq by exact Lx. simpl.
  apply list_lookup_insert_eq, Ly.
Qed.

Lemma at_cell_put_ne (img : ndarray) (plane : list (list Z)) (cl : list Z)
    (x y x' y' : Z) :
  0 <= x -> 0 <= y -> 0 <= x' -> 0 <= y' ->
  img !! Z.to_nat x = Some plane -> (x', y') <> (x, y) ->
  at_cell (<[Z.to_nat x := <[Z.to_nat y := cl]> plane]> img) x' y'
  = at_cell img x' y'.
Proof.
  intros Hx Hy Hx' Hy' Ep N. unfold at_cell.
  destruct (decide (Z.to_nat x = Z.to_nat x')) as [E|NE].
  - rewrite <- E, list_lookup_insert_eq by (eapply lookup_lt_Some, Ep).
    rewrite Ep. simpl. apply list_lookup_insert_ne.
    intros E'. apply N. f_equal; lia.
  - rewrite list_lookup_insert_ne by exact NE. reflexivity.
Qed.

Lemma shaped_put (n0 n1 : Z) (img : ndarray) (plane : list (list Z)) (cl : list Z)
    (i j : nat) :
  shaped n0 n1 img -> img !! i = Some plane -> length cl = 3%nat ->
  shaped n0 n1 (<[i := <[j := cl]> plane]> img).
Proof.
  intros [L F] Ep Hc. split; [rewrite length_insert; exact L|].
  apply Forall_insert; [exact F|].
  destruct (proj1 (Forall_lookup _ _) F i plane Ep) as [Lp Fp].
  split; [rewrite length_insert; exact Lp|].
  apply Forall_insert; assumption.
Qed.

Lemma shaped_at_cell (n0 n1 : Z) (img : ndarray) (x y : Z) :
  shaped n0 n1 img -> 0 <= x -> 0 <= y ->
  (is_Some (at_cell img x y) <-> x < n0 /\ y < n1) /\
  (forall cl, at_cell img x y = Some cl -> length cl = 3%nat).
Proof.
  intros [L F] Hx Hy. unfold at_cell.
  destruct (img !! Z.to_nat x) as [plane|] eqn:Ep; simpl.
  - destruct (proj1 (Forall_lookup _ _) F _ _ Ep) as [Lp Fp].
    apply lookup_lt_Some in Ep as Lx. split.
    + rewrite lookup_lt_is_Some. lia.
    + intros cl Ec. exact (proj1 (Forall_lookup _ _) Fp _ _ Ec).
  - apply lookup_ge_None in Ep. split; [|discriminate].
    split; [intros [? ?]; discriminate | lia].
Qed.

Lemma np_zeros_shaped (n0 n1 : Z) (img : ndarray) :
  np_zeros n0 n1 3 = Ok img ->
  0 <= n0 /\ 0 <= n1 /\ shaped n0 n1 img /\
  forall x y cl, at_cell img x y = Some cl -> cl = [0; 0; 0].
Proof.
  unfold np_zeros. destruct (Z.ltb_spec n0 0); [discriminate|].
  destruct (Z.ltb_spec n1 0); [discriminate|]. simpl. intros [= <-].
  split; [lia|]. split; [lia|]. split.
  - split; [rewrite length_replicate; lia|].
    apply Forall_replicate. split; [rewrite length_replicate; lia|].
    apply Forall_replicate. reflexivity.
  - intros x y cl. unfold at_cell.
    destruct (replicate _ _ !! Z.to_nat x) as [plane|] eqn:Ep; simpl; [|discriminate].
    apply lookup_replicate in Ep as [-> _]. intros Ec.
    apply lookup_replicate in Ec as [-> _]. reflexivity.
Qed.

(** ** What a run has done after any prefix of the scan *)

Lemma pixel_step_Ok (self : FractalJulia) (x y : Z) (img img' : ndarray)
    (color color' : local) :
  pixel_step self (x, y) (img, color) = Ok (img', color') ->
  color_step self (x, y) color = Ok color' /\
  guarded_write img x y color' = Ok img'.
Proof.
  rewrite pixel_step_unfold.
  destruct (color_step self (x, y) color) as [c|e]; simpl; [|discriminate].
  destruct (guarded_write img x y c) as [i|e] eqn:G; simpl; [|discriminate].
  intros [= <- <-]. split; [reflexivity | exact G].
Qed.

Lemma color_after_snoc (self : FractalJulia) (ps : list (Z * Z)) (p : Z * Z)
    (color : local) :
  color_after self (ps ++ [p]) color
  = let* c := color_after self ps color in color_step self p c.
Proof.
  unfold color_after. rewrite for_each_app.
  destruct (for_each (color_step self) ps color) as [c|e]; simpl; [|reflexivity].
  destruct (color_step self p c); reflexivity.
Qed.

(** After the pixels [pre] (distinct, from a fresh buffer): the buffer
    keeps its shape, [color] is what the escape loops left, every cell
    not visited is still zero, and the [i]-th visited cell holds the
    quantized colour that [color] was bound to right after pixel [i]. *)
Lemma run_invariant (self : FractalJulia) (img0 : ndarray) :
  np_zeros (image_height self) (image_width self) 3 = Ok img0 ->
  forall (pre : list (Z * Z)) (img : ndarray) (color : local),
  NoDup pre -> (forall p, p ∈ pre -> 0 <= fst p /\ 0 <= snd p) ->
  for_each (pixel_step self) pre (img0, None) = Ok (img, color) ->
  shaped (image_height self) (image_width self) img /\
  color_after self pre None = Ok color /\
  (forall x y cl, 0 <= x -> 0 <= y -> (x, y) ∉ pre ->
     at_cell img x y = Some cl -> cl = [0; 0; 0]) /\
  (forall i p, pre !! i = Some p -> exists v,
     color_after self (take (S i) pre) None = Ok (Some (PyList v)) /\
     at_cell img (fst p) (snd p) = Some (quantize v)).
Proof.
  intros Hz. destruct (np_zeros_shaped _ _ _ Hz) as (_ & _ & Sh0 & Z0).
  induction pre as [|[x y] pre IH] using rev_ind; intros img color ND NN Run.
  - simpl in Run. injection Run as <- <-.
    split; [exact Sh0|]. split; [reflexivity|]. split.
    + intros x y cl _ _ _. apply Z0.
    + intros i p E. rewrite lookup_nil in E. discriminate.
  - apply NoDup_app in ND as (ND & Fresh & _).
    assert (Hp : (x, y) ∉ pre).
    { intros I. apply (Fresh _ I). apply list_elem_of_singleton. reflexivity. }
    destruct (NN (x, y)) as [Hx Hy]; [apply elem_of_app; right; constructor|].
    simpl in Hx, Hy.
    apply for_each_app_Ok in Run as ([img1 color1] & Run1 & Step).
    simpl in Step.
    destruct (pixel_step self (x, y) (img1, color1)) as [[img' color']|e] eqn:PS;
      simpl in Step; [|discriminate].
    injection Step as -> ->.
    apply pixel_step_Ok in PS as [CS GW].
    assert (NN1 : forall p, p ∈ pre -> 0 <= fst p /\ 0 <= snd p).
    { intros p I. apply NN. apply elem_of_app. left. exact I. }
    destruct (IH img1 color1 ND NN1 Run1) as (Sh1 & CA1 & Zero1 & Done1).
    destruct (at_cell img1 x y) as [cl|] eqn:AC;
      [|rewrite guarded_write_outside in GW by assumption; discriminate].
    assert (cl = [0; 0; 0]) as -> by exact (Zero1 x y cl Hx Hy Hp AC).
    unfold at_cell in AC.
    destruct (img1 !! Z.to_nat x) as [plane|] eqn:Ep; simpl in AC; [|discriminate].
    rewrite (guarded_write_zero img1 plane 0 0 x y color Hx Hy Ep AC) in GW.
    destruct color as [[|v]|]; try discriminate. injection GW as <-.
    assert (CA : color_after self (pre ++ [(x, y)]) None = Ok (Some (PyList v))).
    { rewrite color_after_snoc, CA1. simpl. exact CS. }
    split; [apply shaped_put; [exact Sh1 | exact Ep | reflexivity]|].
    split; [exact CA|]. split.
    + intros x' y' cl Hx' Hy' NI.
      rewrite at_cell_put_ne; try assumption.
      * apply Zero1; try assumption. intros I. apply NI, elem_of_app. left. exact I.
      * intros E. apply NI, elem_of_app. right. rewrite E. constructor.
    + intros i p E. apply lookup_app_Some in E as [E|[Li E]].
      * destruct (Done1 i p E) as (w & CAw & ACw).
        exists w. split.
        -- rewrite take_app_le by (apply lookup_lt_Some in E; lia). exact CAw.
        -- assert (Ip : p ∈ pre) by (eapply list_elem_of_lookup_2, E).
           destruct p as [x' y']. simpl in *.
           rewrite at_cell_put_ne; try assumption.
           ++ exact (proj1 (NN (x', y') ltac:(apply elem_of_app; left; exact Ip))).
           ++ exact (proj2 (NN (x', y') ltac:(apply elem_of_app; left; exact Ip))).
           ++ intros Eq. apply Hp. rewrite <- Eq. exact Ip.
      * destruct (i - length pre)%nat as [|k] eqn:Ek; simpl in E; [|
          rewrite lookup_nil in E; discriminate].
        injection E as <-. exists v. split.
        -- rewrite take_ge by (rewrite length_app; simpl; lia). exact CA.
        -- simpl. apply at_cell_put_eq; [eapply lookup_lt_Some, Ep
                                         | eapply lookup_lt_Some, AC].
Qed.

(** ** Completed and aborted renders *)

Lemma scan_nonneg (self : FractalJulia) (p : Z * Z) :
  p ∈ scan self -> 0 <= fst p /\ 0 <= snd p.
Proof. destruct p as [x y]. rewrite elem_of_scan. simpl. lia. Qed.

Lemma scan_empty (self : FractalJulia) :
  image_width self <= 0 \/ image_height self <= 0 -> scan self = [].
Proof.
  intros H. destruct (scan self) as [|[x y] rest] eqn:E; [reflexivity|].
  assert (I : (x, y) ∈ scan self) by (rewrite E; constructor).
  apply elem_of_scan in I. lia.
Qed.

Lemma np_zeros_Ok (n0 n1 : Z) :
  0 <= n0 -> 0 <= n1 -> exists img, np_zeros n0 n1 3 = Ok img.
Proof.
  intros H0 H1. unfold np_zeros.
  destruct (Z.ltb_spec n0 0); [lia|]. destruct (Z.ltb_spec n1 0); [lia|].
  simpl. eexists. reflexivity.
Qed.

Lemma generate_Ok (self : FractalJulia) (img : ndarray) :
  generate self = Ok img <->
  exists img0 color,
    np_zeros (image_height self) (image_width self) 3 = Ok img0 /\
    for_each (pixel_step self) (scan self) (img0, None) = Ok (img, color).
Proof.
  rewrite generate_flat. split.
  - destruct (np_zeros _ _ _) as [img0|e]; simpl; [|discriminate].
    destruct (for_each _ _ _) as [[img1 color]|e] eqn:R; simpl; [|discriminate].
    intros [= <-]. exists img0, color. split; [reflexivity | exact R].
  - intros (img0 & color & -> & R). simpl. rewrite R. reflexivity.
Qed.

(** The state in which the run reaches a pixel of the scan. *)
Lemma reached_pixel (self : FractalJulia) (img0 : ndarray)
    (pre post : list (Z * Z)) (x y : Z) (img : ndarray) (color : local) :
  np_zeros (image_height self) (image_width self) 3 = Ok img0 ->
  scan self = pre ++ (x, y) :: post ->
  for_each (pixel_step self) pre (img0, None) = Ok (img, color) ->
  0 <= x < image_width self /\ 0 <= y < image_height self /\
  shaped (image_height self) (image_width self) img /\
  color_after self pre None = Ok color /\
  (forall cl, at_cell img x y = Some cl -> cl = [0; 0; 0]).
Proof.
  intros Hz Hs Run.
  assert (ND := NoDup_scan self). rewrite Hs in ND.
  apply NoDup_app in ND as (ND & Fresh & _).
  assert (In_xy : (x, y) ∈ scan self).
  { rewrite Hs. apply elem_of_app. right. constructor. }
  assert (NN : forall p, p ∈ pre -> 0 <= fst p /\ 0 <= snd p).
  { intros p I. apply (scan_nonneg self). rewrite Hs. apply elem_of_app. left. exact I. }
  destruct (run_invariant self img0 Hz pre img color ND NN Run)
    as (Sh & CA & Zero & _).
  apply elem_of_scan in In_xy as [Hx Hy].
  split; [exact Hx|]. split; [exact Hy|]. split; [exact Sh|]. split; [exact CA|].
  intros cl. apply Zero; try lia.
  intros I. apply (Fresh _ I). constructor.
Qed.

(** A render that returns has stored, at [x][y], the colour [color] was
    bound to right after pixel [(x, y)]. *)
Lemma generate_Ok_cells (self : FractalJulia) (img : ndarray) :
  generate self = Ok img ->
  shaped (image_height self) (image_width self) img /\
  forall i x y, scan self !! i = Some (x, y) -> exists v,
    color_after self (take (S i) (scan self)) None = Ok (Some (PyList v)) /\
    cell img x y = Ok (quantize v).
Proof.
  intros G. apply generate_Ok in G as (img0 & color & Hz & Run).
  destruct (run_invariant self img0 Hz (scan self) img color (NoDup_scan self)
              (scan_nonneg self) Run) as (Sh & _ & _ & Done).
  split; [exact Sh|]. intros i x y E.
  destruct (Done i (x, y) E) as (v & CA & AC). exists v. split; [exact CA|].
  destruct (scan_nonneg self (x, y)) as [Hx Hy]; [eapply list_elem_of_lookup_2, E|].
  simpl in *. rewrite cell_at_cell, AC by assumption. reflexivity.
Qed.

(** With both dimensions positive, a render returns only for a square
    image: otherwise some pixel of the scan lies outside the buffer. *)
Lemma generate_Ok_square (self : FractalJulia) (img : ndarray) :
  0 < image_width self -> 0 < image_height self ->
  generate self = Ok img -> image_width self = image_height self.
Proof.
  intros HW HH G. apply generate_Ok in G as (img0 & color & Hz & Run).
  destruct (Z.eq_dec (image_width self) (image_height self)) as [|NE]; [assumption|].
  exfalso.
  set (p := if Z.ltb (image_height self) (image_width self)
            then (image_height self, 0) else (0, image_width self)).
  assert (Ip : p ∈ scan self).
  { subst p. destruct (Z.ltb_spec (image_height self) (image_width self));
      apply elem_of_scan; lia. }
  apply list_elem_of_split in Ip as (pre & post & Hs).
  rewrite Hs in Run. apply for_each_app_Ok in Run as ([img1 color1] & Run1 & Step).
  destruct p as [x y] eqn:Ep.
  destruct (reached_pixel self img0 pre post x y img1 color1 Hz Hs Run1)
    as (Hx & Hy & Sh & _ & _).
  simpl in Step.
  destruct (pixel_step self (x, y) (img1, color1)) as [[img' color']|e] eqn:PS;
    [|discriminate].
  apply pixel_step_Ok in PS as [_ GW].
  destruct (shaped_at_cell _ _ img1 x y Sh ltac:(lia) ltac:(lia)) as [Some_iff _].
  destruct (at_cell img1 x y) as [cl|] eqn:AC.
  - assert (B : x < image_height self /\ y < image_width self).
    { apply Some_iff. eexists. reflexivity. }
    subst p. destruct (Z.ltb_spec (image_height self) (image_width self));
      injection Ep as <- <-; lia.
  - rewrite guarded_write_outside in GW by (try exact AC; lia). discriminate.
Qed.

(** ** The write guard *)

(** C6. A valid square configuration on which the only position is left
    unwritten: the buffer is allocated all zero, the scan has the single
    pixel (0, 0), the guard reads zero there, and the write aborts on the
    unbound [color], so [generate] raises and the cell is never set. *)
Theorem square_render_leaves_cell_unwritten :
  valid cfg_fixed_point /\
  image_width cfg_fixed_point = image_height cfg_fixed_point /\
  np_zeros (image_height cfg_fixed_point) (image_width cfg_fixed_point) 3
  = Ok [[[0; 0; 0]]] /\
  scan cfg_fixed_point = [(0, 0)] /\
  getitem [[[0; 0; 0]]] 0 0 1 = Ok 0 /\
  pixel_step cfg_fixed_point (0, 0) ([[[0; 0; 0]]], None) = Raise NameError /\
  generate cfg_fixed_point = Raise NameError.
Proof.
  split.
  { unfold valid. repeat split; try reflexivity.
    - vm_compute. discriminate.
    - right. reflexivity.
    - left. reflexivity. }
  repeat split; vm_compute; reflexivity.
Qed.

(** The guard of lines 101-104, for a pixel whose escape loop has left
    [color'].  A cell whose green channel is not zero is left as it is,
    and [color] is not read.  A cell whose green channel is zero receives
    the three quantized channels of [color'], and no other cell changes;
    an unbound [color'] raises NameError and None raises TypeError. *)
Theorem green_channel_guard (self : FractalJulia) (x y : Z) (img : ndarray)
    (color color' : local) (a g b : Z) :
  0 <= x -> 0 <= y ->
  color_step self (x, y) color = Ok color' ->
  cell img x y = Ok [a; g; b] ->
  (g <> 0 -> pixel_step self (x, y) (img, color) = Ok (img, color')) /\
  (g = 0 ->
   match color' with
   | None => pixel_step self (x, y) (img, color) = Raise NameError
   | Some PyNone => pixel_step self (x, y) (img, color) = Raise TypeError
   | Some (PyList v) =>
       exists img',
         pixel_step self (x, y) (img, color) = Ok (img', color') /\
         cell img' x y = Ok (quantize v) /\
         forall x' y', 0 <= x' -> 0 <= y' -> (x', y') <> (x, y) ->
           cell img' x' y' = cell img x' y'
   end).
Proof.
  intros Hx Hy CS C. rewrite pixel_step_unfold, CS. simpl.
  rewrite cell_at_cell in C by assumption.
  destruct (at_cell img x y) as [cl|] eqn:AC; [|discriminate].
  injection C as ->. split.
  - intros G. unfold guarded_write. rewrite getitem_at_cell, AC by lia. simpl.
    destruct (Z.eqb_spec g 0); [contradiction | reflexivity].
  - intros ->. unfold at_cell in AC.
    destruct (img !! Z.to_nat x) as [plane|] eqn:Ep; simpl in AC; [|discriminate].
    rewrite (guarded_write_zero img plane a b x y color' Hx Hy Ep AC).
    destruct color' as [[|v]|]; simpl; try reflexivity.
    eexists. split; [reflexivity|]. split.
    + rewrite cell_at_cell by assumption.
      rewrite at_cell_put_eq; [reflexivity | eapply lookup_lt_Some, Ep
                              | eapply lookup_lt_Some, AC].
    + intros x' y' Hx' Hy' NE. rewrite !cell_at_cell by assumption.
      rewrite at_cell_put_ne by assumption. reflexivity.
Qed.

Lemma green_channel_guard_witness :
  exists color',
    color_step cfg_unit (0, 0) None = Ok color' /\
    pixel_step cfg_unit (0, 0) ([[[255; 4; 0]]], None) = Ok ([[[255; 4; 0]]], color').
Proof.
  eexists. split; [vm_compute; reflexivity|].
  apply (proj1 (green_channel_guard cfg_unit 0 0 [[[255; 4; 0]]] None _ 255 4 0
                  ltac:(lia) ltac:(lia) ltac:(vm_compute; reflexivity) eq_refl)).
  discriminate.
Defined.


(** ** The carried-over colour *)

Lemma color_step_escape (self : FractalJulia) (p : Z * Z) (color : local) :
  color_step self p color
  = let* z := sample self (fst p) (snd p) in
    match escape_time self z with
    | Some c => let* v := __generate_color__ self c in Ok (Some v)
    | None => Ok color
    end.
Proof.
  unfold color_step. destruct (sample self _ _) as [z|e]; simpl; [|reflexivity].
  apply escape_loop_escape_time.
Qed.

(** A bound [color] is the colour of the last pixel that escaped. *)
Lemma color_after_last_escape (self : FractalJulia) (ps : list (Z * Z)) (w : pyval) :
  color_after self ps None = Ok (Some w) ->
  exists j p z c,
    ps !! j = Some p /\ sample self (fst p) (snd p) = Ok z /\
    escape_time self z = Some c /\ __generate_color__ self c = Ok w /\
    forall k q zk, (j < k)%nat -> ps !! k = Some q ->
      sample self (fst q) (snd q) = Ok zk -> escape_time self zk = None.
Proof.
  revert w. induction ps as [|p ps IH] using rev_ind; intros w CA.
  - discriminate.
  - rewrite color_after_snoc in CA.
    destruct (color_after self ps None) as [c1|e] eqn:C1; simpl in CA; [|discriminate].
    rewrite color_step_escape in CA.
    destruct (sample self (fst p) (snd p)) as [z|e] eqn:Sp; simpl in CA; [|discriminate].
    destruct (escape_time self z) as [c|] eqn:Ez.
    + destruct (__generate_color__ self c) as [v|e] eqn:Gc; simpl in CA; [|discriminate].
      injection CA as <-. exists (length ps), p, z, c.
      split; [apply list_lookup_middle; reflexivity|].
      repeat (split; [assumption|]).
      intros k q zk Lk Eq. apply lookup_lt_Some in Eq.
      rewrite length_app in Eq. simpl in Eq. lia.
    + injection CA as ->. destruct (IH w eq_refl) as (j & q & zq & c & Ej & Sq & Eq & Gc & Later).
      exists j, q, zq, c.
      split; [apply lookup_app_l_Some; exact Ej|].
      repeat (split; [assumption|]).
      intros k q' zk Lk Ek Sk. apply lookup_app_Some in Ek as [Ek|[Lp Ek]].
      * eapply Later; eassumption.
      * destruct (k - length ps)%nat; simpl in Ek; [|rewrite lookup_nil in Ek; discriminate].
        injection Ek as <-. rewrite Sp in Sk. injection Sk as <-. exact Ez.
Qed.

Lemma scan_head (self : FractalJulia) :
  0 < image_width self -> 0 < image_height self ->
  exists rest, scan self = (0, 0) :: rest.
Proof.
  intros HW HH. unfold scan, range.
  rewrite (seqZ_cons 0 (image_width self - 0)) by lia. rewrite bind_cons.
  rewrite (seqZ_cons 0 (image_height self - 0)) by lia. simpl.
  eexists. reflexivity.
Qed.

(** C10. If pixel (0, 0), the first of the scan, does not escape within
    N iterations, [generate] raises the unbound-variable error and returns
    no image.  In a render that returns, a later pixel that does not
    escape holds the colour computed for the most recently escaped pixel
    before it in scan order. *)
Theorem unbound_or_carried_color (self : FractalJulia) :
  0 < image_width self -> 0 < image_height self ->
  (forall z, sample self 0 0 = Ok z -> escape_time self z = None ->
     generate self = Raise NameError) /\
  (forall img i x y z,
     generate self = Ok img -> scan self !! i = Some (x, y) ->
     sample self x y = Ok z -> escape_time self z = None ->
     exists j x' y' z' c' v,
       (j < i)%nat /\ scan self !! j = Some (x', y') /\
       sample self x' y' = Ok z' /\ escape_time self z' = Some c' /\
       (forall k q zk, (j < k < i)%nat -> scan self !! k = Some q ->
          sample self (fst q) (snd q) = Ok zk -> escape_time self zk = None) /\
       __generate_color__ self c' = Ok (PyList v) /\
       cell img x y = Ok (quantize v)).
Proof.
  intros HW HH. split.
  - intros z Sz Ez. rewrite generate_flat.
    destruct (np_zeros_Ok (image_height self) (image_width self)) as [img0 Hz]; try lia.
    rewrite Hz. simpl.
    destruct (scan_head self HW HH) as [rest ->]. simpl.
    rewrite pixel_step_unfold, color_step_escape. simpl. rewrite Sz. simpl.
    rewrite Ez. simpl.
    destruct (np_zeros_shaped _ _ _ Hz) as (_ & _ & Sh0 & Z0).
    destruct (shaped_at_cell _ _ img0 0 0 Sh0 ltac:(lia) ltac:(lia)) as [S _].
    destruct (at_cell img0 0 0) as [cl|] eqn:AC.
    2:{ exfalso. assert (B : is_Some (@None (list Z))) by (apply S; lia).
        destruct B as [? B]. discriminate. }
    pose proof (Z0 _ _ _ AC) as ->. unfold at_cell in AC.
    destruct (img0 !! Z.to_nat 0) as [plane|] eqn:Ep; simpl in AC; [|discriminate].
    rewrite (guarded_write_zero img0 plane 0 0 0 0 None) by (try assumption; lia).
    reflexivity.
  - intros img i x y z G Ei Sz Ez.
    destruct (generate_Ok_cells self img G) as [_ Cells].
    destruct (Cells i x y Ei) as (v & CA & C).
    destruct (color_after_last_escape self _ _ CA)
      as (j & [x' y'] & z' & c' & Ej & Sj & Esc & Gc & Later).
    simpl in Sj.
    apply lookup_take_Some in Ej as [Ej Lj].
    assert (j <> i).
    { intros ->. rewrite Ei in Ej. injection Ej as <- <-.
      rewrite Sz in Sj. injection Sj as <-. congruence. }
    exists j, x', y', z', c', v.
    split; [lia|]. repeat (split; [assumption|]).
    split; [|split; assumption].
    intros k q zk Lk Ek Sk. apply (Later k q zk); [lia| |exact Sk].
    rewrite lookup_take_lt by lia. exact Ek.
Qed.

Lemma unbound_or_carried_color_witness :
  generate cfg_fixed_point = Raise NameError /\
  exists j x' y' z' c' v,
    (j < 3)%nat /\ scan cfg_carry !! j = Some (x', y') /\
    sample cfg_carry x' y' = Ok z' /\ escape_time cfg_carry z' = Some c' /\
    __generate_color__ cfg_carry c' = Ok (PyList v) /\
    cell [[[255; 4; 0]; [255; 4; 0]]; [[255; 4; 0]; [255; 4; 0]]] 1 1
    = Ok (quantize v).
Proof.
  split.
  - apply (proj1 (unbound_or_carried_color cfg_fixed_point eq_refl eq_refl)
             (Complex (0 + 0 * (1 - 0) / 1) (0 + 0 * (1 - 0) / 1)));
      vm_compute; reflexivity.
  - assert (G : generate cfg_carry
                 = Ok [[[255; 4; 0]; [255; 4; 0]]; [[255; 4; 0]; [255; 4; 0]]])
      by (vm_compute; reflexivity).
    assert (Ei : scan cfg_carry !! 3%nat = Some (1, 1)) by (vm_compute; reflexivity).
    assert (Sz : sample cfg_carry 1 1
                 = Ok (Complex (-2 + 1 * (2 - -2) / 2) (-2 + 1 * (2 - -2) / 2)))
      by (vm_compute; reflexivity).
    assert (Ez : escape_time cfg_carry
                   (Complex (-2 + 1 * (2 - -2) / 2) (-2 + 1 * (2 - -2) / 2)) = None)
      by (vm_compute; reflexivity).
    destruct (proj2 (unbound_or_carried_color cfg_carry eq_refl eq_refl)
                _ _ _ _ _ G Ei Sz Ez)
      as (j & x' & y' & z' & c' & v & Lj & Ej & Sj & Esc & _ & Gc & C).
    exists j, x', y', z', c', v. repeat (split; [assumption|]). exact C.
Defined.

(** ** Configurations on which [generate] does not return an image *)

(** C3. A valid 1 x 1 configuration (quadratic map, constant 0, sample 0,
    N = 5, threshold 4, scheme 2) on which [generate] raises instead of
    returning a buffer: the only pixel never escapes and [color] is read
    unbound. *)
Theorem valid_config_raises_NameError :
  valid cfg_fixed_point /\ generate cfg_fixed_point = Raise NameError.
Proof.
  split; [|vm_compute; reflexivity].
  unfold valid. repeat split; try reflexivity.
  - vm_compute. discriminate.
  - right. reflexivity.
  - left. reflexivity.
Qed.

(** C4. Valid configurations that are not square: the buffer is
    allocated with the height on its first axis and addressed with the
    width index there, so a pixel falls outside it and [generate] raises
    IndexError, for a wide image as for a tall one. *)
Theorem nonsquare_raises_IndexError :
  valid cfg_wide /\ valid cfg_tall /\
  (exists img0,
     np_zeros (image_height cfg_wide) (image_width cfg_wide) 3 = Ok img0 /\
     length img0 = 1%nat /\ cell img0 1 0 = Raise IndexError) /\
  generate cfg_wide = Raise IndexError /\
  generate cfg_tall = Raise IndexError.
Proof.
  assert (V : forall c, c = cfg_wide \/ c = cfg_tall -> valid c).
  { intros c [-> | ->]; unfold valid; repeat split; try reflexivity;
      try (vm_compute; discriminate); try (right; reflexivity);
      left; reflexivity. }
  split; [apply V; left; reflexivity|].
  split; [apply V; right; reflexivity|].
  split; [eexists; split; [reflexivity|]; split; reflexivity|].
  split; vm_compute; reflexivity.
Qed.

(** ** Validation *)

(** C2, as stated, fails: a configuration with inverted grid bounds is
    malformed, yet [generate] reports nothing and returns an image. *)
Lemma inverted_grid_renders :
  malformed cfg_inverted /\ generate cfg_inverted = Ok [[[255; 255; 255]]].
Proof.
  split; [|vm_compute; reflexivity].
  unfold malformed. right. right. left. vm_compute. discriminate.
Qed.

(** C2, amended. What is checked before any pixel is computed.  A
    negative width or height makes the allocation, and with it
    [generate], raise ValueError.  A function id or a palette id outside
    {1, 2} ends the script with a message before a renderer exists.
    Nothing else is checked: with width 0 or height 0 [generate] returns
    the buffer without cells, and with both positive it allocates and
    starts on pixel (0, 0), whatever the grid bounds, the iteration cap
    and the scheme are. *)
Theorem checks_before_rendering (self : FractalJulia) (args : Args) :
  let W := image_width self in
  let H := image_height self in
  (W < 0 \/ H < 0 ->
   np_zeros H W 3 = Raise ValueError /\ generate self = Raise ValueError) /\
  (W = 0 -> 0 <= H -> generate self = Ok (replicate (Z.to_nat H) [])) /\
  (H = 0 -> 0 <= W -> generate self = Ok []) /\
  (0 < W -> 0 < H ->
   exists img0 rest,
     np_zeros H W 3 = Ok img0 /\ scan self = (0, 0) :: rest /\
     generate self
     = let* st1 := pixel_step self (0, 0) (img0, None) in
       let* st := for_each (pixel_step self) rest st1 in
       Ok (fst st)) /\
  (a_function args <> 1 /\ a_function args <> 2 ->
   main args = Exited "[ERROR]: Incorrect value for the function ID!") /\
  (a_function args = 1 \/ a_function args = 2 ->
   a_palette args <> 1 /\ a_palette args <> 2 ->
   main args = Exited "[ERROR]: Incorrect value for the palette ID!").
Proof.
  intros W H.
  assert (Neg : W < 0 \/ H < 0 -> np_zeros H W 3 = Raise ValueError).
  { intros [N|N]; unfold np_zeros.
    - destruct (Z.ltb_spec W 0); [|lia]. rewrite orb_true_r. reflexivity.
    - destruct (Z.ltb_spec H 0); [|lia]. reflexivity. }
  assert (Empty : W <= 0 \/ H <= 0 -> generate self = np_zeros H W 3).
  { intros D. rewrite generate_flat, (scan_empty self D). fold H W.
    destruct (np_zeros H W 3); reflexivity. }
  split; [|split; [|split; [|split; [|split]]]].
  - intros N. split; [exact (Neg N)|]. rewrite Empty by lia. exact (Neg N).
  - intros E HH. rewrite Empty by lia. unfold np_zeros. rewrite E.
    destruct (Z.ltb_spec H 0); [lia|]. reflexivity.
  - intros E HW. rewrite Empty by lia. unfold np_zeros. rewrite E.
    destruct (Z.ltb_spec W 0); [lia|]. reflexivity.
  - intros HW HH.
    destruct (np_zeros_Ok H W) as [img0 Hz]; try lia.
    destruct (scan_head self HW HH) as [rest Hs].
    exists img0, rest. split; [exact Hz|]. split; [exact Hs|].
    rewrite generate_flat. fold H W. rewrite Hz, Hs. simpl.
    destruct (pixel_step self (0, 0) (img0, None)); reflexivity.
  - intros [F1 F2]. unfold main.
    destruct (Z.eqb_spec (a_function args) 1); [contradiction|].
    destruct (Z.eqb_spec (a_function args) 2); [contradiction|]. reflexivity.
  - intros F [P1 P2]. unfold main.
    destruct (Z.eqb_spec (a_palette args) 1); [contradiction|].
    destruct (Z.eqb_spec (a_palette args) 2); [contradiction|].
    destruct (Z.eqb_spec (a_function args) 1);
      destruct (Z.eqb_spec (a_function args) 2); simpl; try reflexivity; lia.
Qed.


(** * Further properties of the code *)

(** ** Colour schemes *)

Lemma Qfloor_hue (h : Z) : Qfloor (inject_Z h / 60 / 2) = h / 120.
Proof.
  unfold Qdiv, Qmult, Qinv, inject_Z, Qfloor. simpl. rewrite !Z.mul_1_r. reflexivity.
Qed.

Lemma hue_X (h : Z) :
  0 <= h < 360 ->
  let t := (inject_Z h / 60)%Q in
  let X := (1 - Qabs (Qmod t 2 - 1))%Q in
  (0 <= h < 60 -> (X == t)%Q) /\
  (60 <= h < 120 -> (X == 2 - t)%Q) /\
  (120 <= h < 180 -> (X == t - 2)%Q) /\
  (180 <= h < 240 -> (X == 4 - t)%Q) /\
  (240 <= h < 300 -> (X == t - 4)%Q) /\
  (300 <= h < 360 -> (X == 6 - t)%Q).
Proof.
  intros Hh t X.
  assert (T : (t * 60 == inject_Z h)%Q).
  { subst t. field. }
  assert (M : forall k, h / 120 = k -> (Qmod t 2 == t - 2 * inject_Z k)%Q).
  { intros k <-. unfold Qmod. subst t. rewrite Qfloor_hue. reflexivity. }
  assert (B : forall a b, a <= h < b -> (inject_Z a <= t * 60 /\ t * 60 < inject_Z b)%Q).
  { intros a b [L U]. rewrite T. split; [rewrite <- Zle_Qle | rewrite <- Zlt_Qlt]; assumption. }
  assert (M0 := M 0). assert (M1 := M 1). assert (M2 := M 2).
  clearbody t. clear M T. unfold inject_Z in M0, M1, M2. subst X.
  repeat split; intros S; destruct (B _ _ S) as [L U]; unfold inject_Z in L, U.
  - rewrite M0 by (apply Z.div_small; lia). rewrite Qabs_neg by lra. lra.
  - rewrite M0 by (apply Z.div_small; lia). rewrite Qabs_pos by lra. lra.
  - rewrite M1 by (symmetry; apply (Z.div_unique h 120 1 (h - 120)); lia).
    rewrite Qabs_neg by lra. lra.
  - rewrite M1 by (symmetry; apply (Z.div_unique h 120 1 (h - 120)); lia).
    rewrite Qabs_pos by lra. lra.
  - rewrite M2 by (symmetry; apply (Z.div_unique h 120 2 (h - 240)); lia).
    rewrite Qabs_neg by lra. lra.
  - rewrite M2 by (symmetry; apply (Z.div_unique h 120 2 (h - 240)); lia).
    rewrite Qabs_pos by lra. lra.
Qed.

(** Settles the comparisons of the hue against the sector bounds. *)
Ltac decide_hue :=
  repeat match goal with
         | |- context [Z.leb ?a ?b] => destruct (Z.leb_spec a b); try lia
         | |- context [Z.ltb ?a ?b] => destruct (Z.ltb_spec a b); try lia
         end; cbn [andb].

(** In exact arithmetic, scheme 1 is the HSV wheel at full saturation
    and value (binary floating point may round a channel just below the
    value given here): with
    h = c mod 360 and t = h / 60, the six sectors give (1, t, 0),
    (2 - t, 1, 0), (0, 1, t - 2), (0, 4 - t, 1), (t - 4, 0, 1) and
    (1, 0, 6 - t); h always falls in one of them. *)
Theorem scheme1_hsv_sectors (c : Z) :
  let h := c mod 360 in
  let t := (inject_Z h / 60)%Q in
  (0 <= h < 60 -> rgb_eq (__generate_color_scheme1__ c) (Rgb 1 t 0)) /\
  (60 <= h < 120 -> rgb_eq (__generate_color_scheme1__ c) (Rgb (2 - t) 1 0)) /\
  (120 <= h < 180 -> rgb_eq (__generate_color_scheme1__ c) (Rgb 0 1 (t - 2))) /\
  (180 <= h < 240 -> rgb_eq (__generate_color_scheme1__ c) (Rgb 0 (4 - t) 1)) /\
  (240 <= h < 300 -> rgb_eq (__generate_color_scheme1__ c) (Rgb (t - 4) 0 1)) /\
  (300 <= h < 360 -> rgb_eq (__generate_color_scheme1__ c) (Rgb 1 0 (6 - t))) /\
  0 <= h < 360.
Proof.
  intros h t.
  assert (Hh : 0 <= h < 360) by (apply Z.mod_pos_bound; lia).
  destruct (hue_X h Hh) as (X0 & X1 & X2 & X3 & X4 & X5).
  unfold __generate_color_scheme1__. fold h. fold t.
  refine (conj _ (conj _ (conj _ (conj _ (conj _ (conj _ Hh))))));
    intros S; decide_hue; unfold rgb_eq; simpl;
    (split; [|split]); try reflexivity; auto.
Qed.

Lemma Qmod_2_bounds (a : Q) : (0 <= Qmod a 2 /\ Qmod a 2 < 2)%Q.
Proof.
  unfold Qmod.
  assert (L := Qfloor_le (a / 2)). assert (U := Qlt_floor (a / 2)).
  rewrite inject_Z_plus in U. unfold inject_Z at 2 in U.
  assert (E : (a == a / 2 * 2)%Q) by field.
  set (f := inject_Z (Qfloor (a / 2))) in *. set (q := (a / 2)%Q) in *.
  clearbody f q. split; lra.
Qed.

Lemma scheme1_cases (c : Z) :
  exists X, (0 <= X /\ X <= 1)%Q /\
    (__generate_color_scheme1__ c = Rgb 1 X 0 \/
     __generate_color_scheme1__ c = Rgb X 1 0 \/
     __generate_color_scheme1__ c = Rgb 0 1 X \/
     __generate_color_scheme1__ c = Rgb 0 X 1 \/
     __generate_color_scheme1__ c = Rgb X 0 1 \/
     __generate_color_scheme1__ c = Rgb 1 0 X).
Proof.
  assert (Hh : 0 <= c mod 360 < 360) by (apply Z.mod_pos_bound; lia).
  unfold __generate_color_scheme1__.
  set (h := c mod 360) in *.
  set (X := (1 - Qabs (Qmod (inject_Z h / 60) 2 - 1))%Q).
  exists X. split.
  - destruct (Qmod_2_bounds (inject_Z h / 60)) as [L U].
    assert (A : (Qabs (Qmod (inject_Z h / 60) 2 - 1) <= 1)%Q).
    { apply Qabs_Qle_condition. split; lra. }
    assert (P := Qabs_nonneg (Qmod (inject_Z h / 60) 2 - 1)).
    subst X. split; lra.
  - decide_hue; tauto.
Qed.

Lemma Qint_floor (q : Q) : (0 <= q)%Q -> Qint q = Qfloor q.
Proof.
  destruct q as [n d]. unfold Qle, Qint, Qfloor. simpl. intros H.
  apply Z.quot_div_nonneg; lia.
Qed.

Lemma Qint_unit (v : Q) : (0 <= v <= 1)%Q -> 0 <= Qint (v * 255) <= 255.
Proof.
  intros [L U]. rewrite Qint_floor by lra.
  assert (A := Qfloor_resp_le 0 (v * 255) ltac:(lra)).
  assert (B := Qfloor_resp_le (v * 255) 255 ltac:(lra)).
  change (Qfloor 0) with 0 in A. change (Qfloor 255) with 255 in B. lia.
Qed.

Lemma quantize_unit (v : rgb) :
  unit_rgb v ->
  quantize v = [Qint (c0 v * 255); Qint (c1 v * 255); Qint (c2 v * 255)] /\
  Forall (fun b => 0 <= b <= 255) (quantize v).
Proof.
  intros (H0 & H1 & H2).
  apply Qint_unit in H0, H1, H2. unfold quantize.
  rewrite !Z.mod_small by lia. split; [reflexivity|].
  repeat constructor; lia.
Qed.

Lemma scheme1_unit (c : Z) : unit_rgb (__generate_color_scheme1__ c).
Proof.
  destruct (scheme1_cases c) as (X & [L U] & [E|[E|[E|[E|[E|E]]]]]);
    rewrite E; unfold unit_rgb; simpl; repeat split; try assumption; lra.
Qed.

Lemma scheme2_unit (self : FractalJulia) (c : Z) :
  1 <= iterations self -> 0 <= c + 1 ->
  exists v, __generate_color_scheme2__ self c = Ok v /\ unit_rgb v.
Proof.
  intros HN Hc. eexists. split; [apply scheme2_value, HN|].
  set (x := (inject_Z (c + 1) / inject_Z (iterations self) * 2)%Q).
  assert (P : (0 <= x)%Q).
  { subst x. apply Qmult_le_0_compat; [|lra]. unfold Qdiv.
    apply Qmult_le_0_compat; [unfold Qle; simpl; lia|].
    apply Qlt_le_weak, Qinv_lt_0_compat, inject_Z_pos. lia. }
  destruct (Qgtb x 1) eqn:E; unfold unit_rgb; simpl.
  - repeat split; lra.
  - apply Qgtb_false in E. repeat split; assumption.
Qed.

(** For a scheme in {1, 2} and a count the loop can pass, 1 <= c <= N,
    the colour is a list whose channels lie in [0, 1], so each stored
    value int(channel * 255) lies in 0..255 and the uint8 cell holds it
    unchanged. *)
Theorem stored_bytes_exact (self : FractalJulia) (c : Z) :
  scheme self = 1 \/ scheme self = 2 ->
  1 <= c <= iterations self ->
  exists v,
    __generate_color__ self c = Ok (PyList v) /\
    unit_rgb v /\
    quantize v = [Qint (c0 v * 255); Qint (c1 v * 255); Qint (c2 v * 255)] /\
    Forall (fun b => 0 <= b <= 255) (quantize v).
Proof.
  intros S Hc. unfold __generate_color__. destruct S as [-> | ->]; simpl.
  - eexists. split; [reflexivity|]. split; [apply scheme1_unit|].
    apply quantize_unit, scheme1_unit.
  - destruct (scheme2_unit self c) as (v & E & U); try lia.
    rewrite E. simpl. exists v. split; [reflexivity|]. split; [exact U|].
    apply quantize_unit, U.
Qed.

(** Every colour of scheme 1 has its channels in [0, 1], one channel
    equal to 1 and one equal to 0; the initial black [0, 0, 0] is never
    returned. *)
Theorem scheme1_full_saturation (c : Z) :
  let v := __generate_color_scheme1__ c in
  unit_rgb v /\
  (c0 v = 1 \/ c1 v = 1 \/ c2 v = 1)%Q /\
  (c0 v = 0 \/ c1 v = 0 \/ c2 v = 0)%Q.
Proof.
  intros v. split; [apply scheme1_unit|]. subst v.
  destruct (scheme1_cases c) as (X & _ & [E|[E|[E|[E|[E|E]]]]]);
    rewrite E; simpl; tauto.
Qed.

(** ** Renders, their buffers and their exceptions *)

(** In a render that returns, a pixel that escapes at count c holds, at
    [x][y], the quantized colour of its own count c: nothing is carried
    over into it from another pixel. *)
Theorem escaping_pixel_own_color (self : FractalJulia) (img : ndarray)
    (i : nat) (x y : Z) (z : complex) (c : Z) :
  generate self = Ok img -> scan self !! i = Some (x, y) ->
  sample self x y = Ok z -> escape_time self z = Some c ->
  exists v, __generate_color__ self c = Ok (PyList v) /\
            cell img x y = Ok (quantize v).
Proof.
  intros G Ei Sz Ez.
  destruct (generate_Ok_cells self img G) as [_ Cells].
  destruct (Cells i x y Ei) as (v & CA & C). exists v. split; [|exact C].
  rewrite (take_S_r _ _ _ Ei), color_after_snoc in CA.
  destruct (color_after self (take i (scan self)) None) as [c1|e]; simpl in CA;
    [|discriminate].
  rewrite color_step_escape in CA. simpl in CA. rewrite Sz in CA. simpl in CA.
  rewrite Ez in CA.
  destruct (__generate_color__ self c) as [w|e]; simpl in CA; [|discriminate].
  injection CA as ->. reflexivity.
Qed.

Lemma escaping_pixel_own_color_witness :
  exists v, __generate_color__ cfg_unit 1 = Ok (PyList v) /\
            cell [[[255; 255; 255]]] 0 0 = Ok (quantize v).
Proof.
  apply (escaping_pixel_own_color cfg_unit [[[255; 255; 255]]] 0 0 0
           (Complex (0 + 0 * (1 - 0) / 1) (0 + 0 * (1 - 0) / 1)) 1);
    vm_compute; reflexivity.
Defined.

(** With both dimensions positive and different, [generate] never
    returns an image: it raises. *)
Theorem nonsquare_never_returns (self : FractalJulia) :
  0 < image_width self -> 0 < image_height self ->
  image_width self <> image_height self ->
  exists e, generate self = Raise e.
Proof.
  intros HW HH NE. destruct (generate self) as [img|e] eqn:G.
  - exfalso. apply NE. exact (generate_Ok_square self img HW HH G).
  - exists e. reflexivity.
Qed.

Lemma nonsquare_never_returns_witness : exists e, generate cfg_tall = Raise e.
Proof.
  apply (nonsquare_never_returns cfg_tall); vm_compute; congruence.
Defined.

(** With a width or height that is not positive no pixel is computed:
    [generate] ends as the allocation does, whatever the other
    parameters are.  A negative dimension raises ValueError; width 0
    gives [height] empty rows, height 0 gives the empty buffer. *)
Theorem degenerate_sizes (self : FractalJulia) :
  image_width self <= 0 \/ image_height self <= 0 ->
  generate self = np_zeros (image_height self) (image_width self) 3 /\
  (image_width self < 0 \/ image_height self < 0 ->
   generate self = Raise ValueError) /\
  (image_width self = 0 -> 0 <= image_height self ->
   generate self = Ok (replicate (Z.to_nat (image_height self)) [])) /\
  (image_height self = 0 -> 0 <= image_width self -> generate self = Ok []).
Proof.
  intros D.
  assert (G : generate self = np_zeros (image_height self) (image_width self) 3).
  { rewrite generate_flat, (scan_empty self D).
    destruct (np_zeros _ _ _); reflexivity. }
  split; [exact G|]. rewrite G. unfold np_zeros. repeat split.
  - intros [N|N].
    + destruct (Z.ltb_spec (image_width self) 0); [|lia].
      rewrite orb_true_r. reflexivity.
    + destruct (Z.ltb_spec (image_height self) 0); [|lia]. reflexivity.
  - intros -> HH. destruct (Z.ltb_spec (image_height self) 0); [lia|]. reflexivity.
  - intros -> HW. destruct (Z.ltb_spec (image_width self) 0); [lia|]. reflexivity.
Qed.

Lemma degenerate_sizes_witness :
  generate (__init__ (0, 2) (0, 0, 1, 1)%Q FunctionList.func_z2pc origin 0 4 7)
  = Ok [[]; []].
Proof.
  apply (degenerate_sizes
           (__init__ (0, 2) (0, 0, 1, 1)%Q FunctionList.func_z2pc origin 0 4 7));
    [left; vm_compute; discriminate | reflexivity | vm_compute; discriminate].
Defined.

Lemma generate_color_Ok (self : FractalJulia) (c : Z) :
  iterations self <> 0 ->
  exists v, __generate_color__ self c = Ok v /\
    (scheme self <> 1 -> scheme self <> 2 -> v = PyNone) /\
    (scheme self = 1 \/ scheme self = 2 -> exists w, v = PyList w).
Proof.
  intros HN. unfold __generate_color__, __generate_color_scheme2__, py_div.
  destruct (Qeq_bool (inject_Z (iterations self)) 0) eqn:E.
  { apply Qeq_bool_eq in E. unfold Qeq in E. simpl in E. lia. }
  destruct (Z.eqb_spec (scheme self) 1) as [S1|S1];
    [|destruct (Z.eqb_spec (scheme self) 2) as [S2|S2]]; simpl;
    eexists; (split; [reflexivity|]); split; intros; try lia; try congruence;
    try (eexists; reflexivity); tauto.
Qed.

Lemma color_step_Ok (self : FractalJulia) (x y : Z) (color : local) :
  0 < image_width self -> 0 < image_height self ->
  exists z, sample self x y = Ok z /\
    match escape_time self z with
    | Some c => exists v, __generate_color__ self c = Ok v /\
                          color_step self (x, y) color = Ok (Some v)
    | None => color_step self (x, y) color = Ok color
    end.
Proof.
  intros HW HH. rewrite color_step_escape. unfold sample. simpl.
  rewrite !grid_coord_Ok by assumption. simpl. eexists. split; [reflexivity|].
  match goal with |- context [escape_time self ?z] =>
    destruct (escape_time self z) as [c|] eqn:E end; [|reflexivity].
  apply escape_time_Some in E as (Hc & _).
  destruct (generate_color_Ok self c ltac:(lia)) as (v & Gv & _).
  exists v. rewrite Gv. split; reflexivity.
Qed.

(** With a colour scheme other than 1 and 2, [__generate_color__]
    evaluates to None, and a render with at least one pixel never
    returns: subscripting None raises TypeError if pixel (0, 0) escapes,
    and the unbound [color] raises NameError if it does not. *)
Theorem unknown_scheme_never_returns (self : FractalJulia) (z : complex) :
  scheme self <> 1 -> scheme self <> 2 ->
  0 < image_width self -> 0 < image_height self ->
  sample self 0 0 = Ok z ->
  (forall c, iterations self <> 0 -> __generate_color__ self c = Ok PyNone) /\
  generate self
  = Raise (match escape_time self z with Some _ => TypeError | None => NameError end).
Proof.
  intros S1 S2 HW HH Sz. split.
  { intros c HN. destruct (generate_color_Ok self c HN) as (v & E & N & _).
    rewrite E, (N S1 S2). reflexivity. }
  rewrite generate_flat.
  destruct (np_zeros_Ok (image_height self) (image_width self)) as [img0 Hz]; try lia.
  rewrite Hz. simpl.
  destruct (scan_head self HW HH) as [rest ->]. simpl.
  rewrite pixel_step_unfold.
  destruct (np_zeros_shaped _ _ _ Hz) as (_ & _ & Sh0 & Z0).
  destruct (shaped_at_cell _ _ img0 0 0 Sh0 ltac:(lia) ltac:(lia)) as [S _].
  destruct (at_cell img0 0 0) as [cl|] eqn:AC.
  2:{ exfalso. assert (B : is_Some (@None (list Z))) by (apply S; lia).
      destruct B as [? B]. discriminate. }
  pose proof (Z0 _ _ _ AC) as ->. unfold at_cell in AC.
  destruct (img0 !! Z.to_nat 0) as [plane|] eqn:Ep; simpl in AC; [|discriminate].
  destruct (color_step_Ok self 0 0 None HW HH) as (z' & Sz' & CS).
  rewrite Sz in Sz'. injection Sz' as <-.
  destruct (escape_time self z) as [c|] eqn:Ez.
  - destruct CS as (v & Gv & CS). rewrite CS. simpl.
    apply escape_time_Some in Ez as (Hc & _).
    destruct (generate_color_Ok self c ltac:(lia)) as (v' & Gv' & N & _).
    rewrite Gv in Gv'. injection Gv' as <-. rewrite (N S1 S2).
    rewrite (guarded_write_zero img0 plane 0 0 0 0 _) by (try assumption; lia).
    reflexivity.
  - rewrite CS. simpl.
    rewrite (guarded_write_zero img0 plane 0 0 0 0 _) by (try assumption; lia).
    reflexivity.
Qed.

Lemma unknown_scheme_never_returns_witness :
  generate (__init__ (1, 1) (0, 0, 1, 1)%Q FunctionList.func_z2pc (Complex 3 0) 1 4 3)
  = Raise TypeError.
Proof.
  apply (unknown_scheme_never_returns
           (__init__ (1, 1) (0, 0, 1, 1)%Q FunctionList.func_z2pc (Complex 3 0) 1 4 3)
           (Complex (0 + 0 * (1 - 0) / 1) (0 + 0 * (1 - 0) / 1)));
    try (vm_compute; congruence); vm_compute; reflexivity.
Defined.

Lemma for_each_Raise {S X} (f : X -> S -> res S) (xs : list X) (s : S) (e : exn) :
  for_each f xs s = Raise e ->
  exists pre x post s', xs = pre ++ x :: post /\
    for_each f pre s = Ok s' /\ f x s' = Raise e.
Proof.
  revert s. induction xs as [|x xs IH]; intros s; simpl; [discriminate|].
  destruct (f x s) as [s1|e1] eqn:F; simpl.
  - intros R. destruct (IH s1 R) as (pre & x' & post & s' & -> & P & F').
    exists (x :: pre), x', post, s'. split; [reflexivity|]. split; [|exact F'].
    simpl. rewrite F. exact P.
  - intros [= ->]. exists [], x, xs, s. repeat split. exact F.
Qed.

Lemma np_index_Raise (len : nat) (i : Z) (e : exn) :
  np_index len i = Raise e -> e = IndexError.
Proof.
  unfold np_index. repeat (destruct (_ && _)); congruence.
Qed.

Lemma axis_get_Raise {A} (l : list A) (i : Z) (e : exn) :
  axis_get l i = Raise e -> e = IndexError.
Proof.
  unfold axis_get. destruct (np_index _ _) as [n|e'] eqn:E; simpl.
  - destruct (l !! n); congruence.
  - intros [= <-]. eapply np_index_Raise, E.
Qed.

Lemma axis_set_Raise {A} (l : list A) (i : Z) (a : A) (e : exn) :
  axis_set l i a = Raise e -> e = IndexError.
Proof.
  unfold axis_set. destruct (np_index _ _) as [n|e'] eqn:E; simpl; [discriminate|].
  intros [= <-]. eapply np_index_Raise, E.
Qed.

Lemma getitem_Raise (img : ndarray) (i j k : Z) (e : exn) :
  getitem img i j k = Raise e -> e = IndexError.
Proof.
  unfold getitem.
  destruct (axis_get img i) as [plane|e1] eqn:E1; simpl;
    [|intros [= <-]; eapply axis_get_Raise, E1].
  destruct (axis_get plane j) as [cl|e2] eqn:E2; simpl;
    [|intros [= <-]; eapply axis_get_Raise, E2].
  apply axis_get_Raise.
Qed.

Lemma setitem_Raise (img : ndarray) (i j k v : Z) (e : exn) :
  setitem img i j k v = Raise e -> e = IndexError.
Proof.
  unfold setitem.
  destruct (axis_get img i) as [plane|e1] eqn:E1; simpl;
    [|intros [= <-]; eapply axis_get_Raise, E1].
  destruct (axis_get plane j) as [cl|e2] eqn:E2; simpl;
    [|intros [= <-]; eapply axis_get_Raise, E2].
  destruct (axis_set cl k _) as [cl'|e3] eqn:E3; simpl;
    [|intros [= <-]; eapply axis_set_Raise, E3].
  destruct (axis_set plane j _) as [plane'|e4] eqn:E4; simpl;
    [|intros [= <-]; eapply axis_set_Raise, E4].
  apply axis_set_Raise.
Qed.

Lemma color_item_Raise (color : local) (k : rgb -> Q) (e : exn) :
  color_item color k = Raise e ->
  (e = NameError /\ color = None) \/ (e = TypeError /\ color = Some PyNone).
Proof.
  destruct color as [[|v]|]; simpl; intros [= <-]; tauto.
Qed.

Lemma guarded_write_Raise (img : ndarray) (x y : Z) (color : local) (e : exn) :
  guarded_write img x y color = Raise e ->
  e = IndexError \/ (e = NameError /\ color = None) \/
  (e = TypeError /\ color = Some PyNone).
Proof.
  unfold guarded_write.
  destruct (getitem img x y 1) as [g|e1] eqn:G; simpl;
    [|intros [= <-]; left; eapply getitem_Raise, G].
  destruct (g =? 0); [|discriminate].
  destruct (color_item color c0) as [v0|e0] eqn:C0; simpl;
    [|intros [= <-]; right; eapply color_item_Raise, C0].
  destruct (setitem img x y 0 _) as [i1|e1] eqn:S0; simpl;
    [|intros [= <-]; left; eapply setitem_Raise, S0].
  destruct (color_item color c1) as [v1|e1] eqn:C1; simpl;
    [|intros [= <-]; right; eapply color_item_Raise, C1].
  destruct (setitem i1 x y 1 _) as [i2|e2] eqn:S1; simpl;
    [|intros [= <-]; left; eapply setitem_Raise, S1].
  destruct (color_item color c2) as [v2|e2] eqn:C2; simpl;
    [|intros [= <-]; right; eapply color_item_Raise, C2].
  destruct (setitem i2 x y 2 _) as [i3|e3] eqn:S2; simpl; [discriminate|].
  intros [= <-]; left; eapply setitem_Raise, S2.
Qed.

Lemma run_color (self : FractalJulia) (ps : list (Z * Z)) :
  forall (img img' : ndarray) (color color' : local),
  for_each (pixel_step self) ps (img, color) = Ok (img', color') ->
  color_after self ps color = Ok color'.
Proof.
  unfold color_after.
  induction ps as [|[x y] ps IH]; intros img img' color color'; simpl.
  - intros [= _ <-]. reflexivity.
  - destruct (pixel_step self (x, y) (img, color)) as [[img1 color1]|e] eqn:PS;
      simpl; [|discriminate].
    apply pixel_step_Ok in PS as [CS _]. rewrite CS. simpl. apply IH.
Qed.

Lemma color_after_list (self : FractalJulia) (ps : list (Z * Z)) (v : pyval) :
  scheme self = 1 \/ scheme self = 2 ->
  color_after self ps None = Ok (Some v) -> exists w, v = PyList w.
Proof.
  intros S CA.
  destruct (color_after_last_escape self ps v CA) as (j & p & z & c & _ & _ & Ez & Gv & _).
  apply escape_time_Some in Ez as (Hc & _).
  destruct (generate_color_Ok self c ltac:(lia)) as (v' & Gv' & _ & L).
  rewrite Gv in Gv'. injection Gv' as <-. exact (L S).
Qed.

(** While [color] is unbound, no pixel so far has escaped. *)
Lemma color_after_unbound (self : FractalJulia) (ps : list (Z * Z)) :
  color_after self ps None = Ok None ->
  forall p z, p ∈ ps -> sample self (fst p) (snd p) = Ok z ->
    escape_time self z = None.
Proof.
  induction ps as [|q ps IH] using rev_ind; intros CA p z I Sp.
  - inversion I.
  - rewrite color_after_snoc in CA.
    destruct (color_after self ps None) as [c1|e] eqn:C1; simpl in CA; [|discriminate].
    rewrite color_step_escape in CA.
    destruct (sample self (fst q) (snd q)) as [zq|e] eqn:Sq; simpl in CA; [|discriminate].
    destruct (escape_time self zq) as [c|] eqn:Eq.
    { destruct (__generate_color__ self c); simpl in CA; discriminate. }
    injection CA as ->.
    apply elem_of_app in I as [I|I].
    + exact (IH eq_refl p z I Sp).
    + apply list_elem_of_singleton in I as ->. rewrite Sq in Sp.
      injection Sp as <-. exact Eq.
Qed.

(** What the exceptions of [generate] tell: it never raises
    ZeroDivisionError (the divisions by the width, the height and the
    iteration cap are reached only when these are positive); NameError
    means that pixel (0, 0) did not escape; TypeError means that the
    colour scheme is neither 1 nor 2. *)
Theorem generate_error_causes (self : FractalJulia) (e : exn) :
  generate self = Raise e ->
  e <> ZeroDivisionError /\
  (e = NameError ->
   exists z, sample self 0 0 = Ok z /\ escape_time self z = None) /\
  (e = TypeError -> scheme self <> 1 /\ scheme self <> 2).
Proof.
  rewrite generate_flat. unfold np_zeros.
  destruct (Z.ltb_spec (image_height self) 0) as [HH|HH]; simpl.
  { intros [= <-]. repeat split; discriminate. }
  destruct (Z.ltb_spec (image_width self) 0) as [HW|HW]; simpl.
  { intros [= <-]. repeat split; discriminate. }
  destruct (for_each _ _ _) as [st|e'] eqn:R; simpl; [discriminate|].
  intros [= ->].
  apply for_each_Raise in R as (pre & [x y] & post & [img color] & Hs & Run & PS).
  apply run_color in Run.
  assert (I : (x, y) ∈ scan self) by (rewrite Hs; apply elem_of_app; right; constructor).
  apply elem_of_scan in I as [Hx Hy].
  assert (PW : 0 < image_width self) by lia.
  assert (PH : 0 < image_height self) by lia.
  rewrite pixel_step_unfold in PS.
  destruct (color_step self (x, y) color) as [color'|e1] eqn:CS; simpl in PS.
  2:{ exfalso. destruct (color_step_Ok self x y color PW PH) as (z & _ & K).
      destruct (escape_time self z); [destruct K as (v & _ & K)|]; congruence. }
  destruct (guarded_write img x y color') as [img'|e1] eqn:GW; simpl in PS;
    [discriminate|].
  injection PS as ->.
  assert (CA : color_after self (pre ++ [(x, y)]) None = Ok color').
  { rewrite color_after_snoc, Run. simpl. exact CS. }
  apply guarded_write_Raise in GW as [->|[[-> N]|[-> N]]].
  - repeat split; discriminate.
  - split; [discriminate|]. split; [|discriminate]. intros _. subst color'.
    destruct (scan_head self PW PH) as [rest Hr].
    destruct (color_step_Ok self 0 0 None PW PH) as (z & Sz & _).
    exists z. split; [exact Sz|].
    apply (color_after_unbound self _ CA (0, 0)); [|exact Sz].
    rewrite Hs in Hr. destruct pre as [|q pre]; simpl in Hr;
      inversion Hr; subst; simpl; apply list_elem_of_here.
  - split; [discriminate|]. split; [discriminate|]. intros _. subst color'.
    split; intros S;
      [destruct (color_after_list self _ PyNone (or_introl S) CA) as [w Ew]
      |destruct (color_after_list self _ PyNone (or_intror S) CA) as [w Ew]];
      discriminate.
Qed.

Lemma generate_error_causes_witness :
  generate cfg_fixed_point = Raise NameError /\
  exists z, sample cfg_fixed_point 0 0 = Ok z /\
            escape_time cfg_fixed_point z = None.
Proof.
  assert (G : generate cfg_fixed_point = Raise NameError) by (vm_compute; reflexivity).
  split; [exact G|].
  exact (proj1 (proj2 (generate_error_causes cfg_fixed_point NameError G)) eq_refl).
Defined.


Lemma escape_time_first (self : FractalJulia) (z : complex) (c' : Z) :
  1 <= c' <= iterations self -> exceeds self z c' = true ->
  exists c, escape_time self z = Some c /\ c <= c'.
Proof.
  intros Hc E. destruct (escape_time self z) as [c|] eqn:Ez.
  - exists c. split; [reflexivity|].
    apply escape_time_Some in Ez as (_ & _ & Min).
    destruct (Z_le_gt_dec c c') as [|G]; [assumption|].
    rewrite Min in E by lia. discriminate.
  - rewrite (proj1 (escape_time_None self z) Ez c' Hc) in E. discriminate.
Qed.

Lemma iterate_same (self self' : FractalJulia) (z : complex) (n : nat) :
  function self' = function self -> constant self' = constant self ->
  iterate self' z n = iterate self z n.
Proof. intros F C. unfold iterate. rewrite F, C. reflexivity. Qed.

(** Raising the threshold never makes a sample escape earlier: if it
    escapes at c' under the higher threshold, it escapes at some c <= c'
    under the lower one (same function, constant and cap). *)
Theorem higher_threshold_escapes_later (self self' : FractalJulia) (z : complex)
    (c' : Z) :
  function self' = function self -> constant self' = constant self ->
  iterations self' = iterations self ->
  (zmax self <= zmax self')%Q ->
  escape_time self' z = Some c' ->
  exists c, escape_time self z = Some c /\ c <= c'.
Proof.
  intros F C N T Ez. apply escape_time_Some in Ez as (Hc & E & _).
  apply escape_time_first; [lia|].
  unfold exceeds in *. rewrite (iterate_same self self') in E by assumption.
  apply Qgtb_true. apply Qgtb_true in E. lra.
Qed.

(** The escape count does not depend on the iteration cap beyond
    fitting under it: a sample that escapes at c under cap N escapes at
    the same c under any larger cap, and conversely when c <= N. *)
Theorem larger_cap_same_escape (self self' : FractalJulia) (z : complex) (c : Z) :
  function self' = function self -> constant self' = constant self ->
  (zmax self' == zmax self)%Q ->
  iterations self <= iterations self' ->
  (escape_time self z = Some c -> escape_time self' z = Some c) /\
  (escape_time self' z = Some c -> c <= iterations self ->
   escape_time self z = Some c).
Proof.
  intros F C T N.
  assert (X : forall k, exceeds self' z k = exceeds self z k).
  { intros k. unfold exceeds. rewrite (iterate_same self self') by assumption.
    unfold Qgtb. f_equal.
    destruct (Qle_bool _ (zmax self)) eqn:A.
    - apply Qle_bool_iff. apply Qle_bool_iff in A. rewrite T. exact A.
    - destruct (Qle_bool _ (zmax self')) eqn:B; [|reflexivity].
      apply Qle_bool_iff in B. rewrite T in B. apply Qle_bool_iff in B. congruence. }
  split.
  - intros Ez. apply escape_time_Some in Ez as (Hc & E & Min).
    apply escape_time_Some. split; [lia|]. split; [rewrite X; exact E|].
    intros k Hk. rewrite X. apply Min, Hk.
  - intros Ez Hc. apply escape_time_Some in Ez as (Hc' & E & Min).
    apply escape_time_Some. split; [lia|]. split; [rewrite <- X; exact E|].
    intros k Hk. rewrite <- X. apply Min, Hk.
Qed.

Lemma bind_lookup_blocks {A B} (f : A -> list B) (h : nat) (l : list A) :
  (forall a, length (f a) = h) ->
  forall i j, (j < h)%nat ->
  (l ≫= f) !! (i * h + j)%nat = l !! i ≫= fun a => f a !! j.
Proof.
  intros Hf. induction l as [|a l IH]; intros i j Hj.
  - reflexivity.
  - rewrite bind_cons. destruct i as [|i]; simpl.
    + apply lookup_app_l. rewrite Hf. exact Hj.
    + rewrite lookup_app_r by (rewrite Hf; lia). rewrite Hf.
      replace (h + i * h + j - h)%nat with (i * h + j)%nat by lia.
      apply IH, Hj.
Qed.

Lemma bind_length_blocks {A B} (f : A -> list B) (h : nat) (l : list A) :
  (forall a, length (f a) = h) -> length (l ≫= f) = (length l * h)%nat.
Proof.
  intros Hf. induction l as [|a l IH]; [reflexivity|].
  rewrite bind_cons, length_app, Hf, IH. simpl. reflexivity.
Qed.

(** The two loops visit pixel (x, y) as number x * height + y, columns
    first, and visit width * height pixels in all. *)
Theorem scan_raster_order (self : FractalJulia) (x y : Z) :
  0 <= x < image_width self -> 0 <= y < image_height self ->
  scan self !! Z.to_nat (x * image_height self + y) = Some (x, y) /\
  length (scan self) = Z.to_nat (image_width self * image_height self).
Proof.
  intros Hx Hy. unfold scan, range.
  set (f := fun x0 : Z => (fun y0 : Z => (x0, y0)) <$> seqZ 0 (image_height self - 0)).
  assert (Hf : forall a, length (f a) = Z.to_nat (image_height self)).
  { intros a. subst f. simpl. rewrite length_fmap, length_seqZ. f_equal. lia. }
  split.
  - replace (Z.to_nat (x * image_height self + y))
      with (Z.to_nat x * Z.to_nat (image_height self) + Z.to_nat y)%nat by nia.
    rewrite (bind_lookup_blocks f _ _ Hf) by lia.
    rewrite lookup_seqZ_lt by lia. simpl. subst f. simpl.
    rewrite list_lookup_fmap, lookup_seqZ_lt by lia. simpl.
    f_equal. f_equal; lia.
  - rewrite (bind_length_blocks f _ _ Hf), length_seqZ. nia.
Qed.

(** A returned buffer has [image_height] planes of [image_width] cells,
    and every cell has three channels, each in 0..255. *)
Theorem returned_buffer_bytes (self : FractalJulia) (img : ndarray) :
  generate self = Ok img ->
  shaped (image_height self) (image_width self) img /\
  forall x y cl, 0 <= x -> 0 <= y -> cell img x y = Ok cl ->
    length cl = 3%nat /\ Forall (fun b => 0 <= b <= 255) cl.
Proof.
  intros G. apply generate_Ok in G as (img0 & color & Hz & Run).
  destruct (run_invariant self img0 Hz (scan self) img color (NoDup_scan self)
              (scan_nonneg self) Run) as (Sh & _ & Zero & Done).
  split; [exact Sh|]. intros x y cl Hx Hy C.
  rewrite cell_at_cell in C by assumption.
  destruct (at_cell img x y) as [cl'|] eqn:AC; [|discriminate].
  injection C as ->.
  destruct (decide ((x, y) ∈ scan self)) as [I|NI].
  - apply list_elem_of_lookup_1 in I as [i Ei].
    destruct (Done i (x, y) Ei) as (v & _ & AC'). simpl in AC'.
    rewrite AC in AC'. injection AC' as ->. split; [reflexivity|].
    unfold quantize. repeat constructor;
      match goal with |- context [?a mod 256] =>
        pose proof (Z.mod_pos_bound a 256 ltac:(lia)); lia end.
  - rewrite (Zero x y cl Hx Hy NI AC). split; [reflexivity|].
    repeat constructor; lia.
Qed.


Lemma stored_bytes_exact_witness :
  exists v, __generate_color__ cfg_carry 1 = Ok (PyList v) /\
            quantize v = [Qint (c0 v * 255); Qint (c1 v * 255); Qint (c2 v * 255)].
Proof.
  destruct (stored_bytes_exact cfg_carry 1) as (v & G & _ & E & _);
    [left; reflexivity | vm_compute; split; discriminate |].
  exists v. split; [exact G | exact E].
Defined.

Lemma higher_threshold_escapes_later_witness :
  escape_time cfg_carry_high (Complex 0 (-2)) = Some 2 /\
  exists c, escape_time cfg_carry (Complex 0 (-2)) = Some c /\ c <= 2.
Proof.
  assert (E : escape_time cfg_carry_high (Complex 0 (-2)) = Some 2)
    by (vm_compute; reflexivity).
  split; [exact E|].
  exact (higher_threshold_escapes_later cfg_carry cfg_carry_high (Complex 0 (-2)) 2
           eq_refl eq_refl eq_refl ltac:(vm_compute; discriminate) E).
Defined.

Lemma larger_cap_same_escape_witness :
  escape_time cfg_carry (Complex 0 (-2)) = Some 1 /\
  escape_time cfg_carry_long (Complex 0 (-2)) = Some 1.
Proof.
  assert (E : escape_time cfg_carry (Complex 0 (-2)) = Some 1)
    by (vm_compute; reflexivity).
  split; [exact E|].
  exact (proj1 (larger_cap_same_escape cfg_carry cfg_carry_long (Complex 0 (-2)) 1
                  eq_refl eq_refl ltac:(reflexivity) ltac:(vm_compute; discriminate))
           E).
Defined.

Lemma scan_raster_order_witness :
  scan cfg_carry !! Z.to_nat (1 * image_height cfg_carry + 0) = Some (1, 0) /\
  length (scan cfg_carry) = Z.to_nat (image_width cfg_carry * image_height cfg_carry).
Proof.
  apply (scan_raster_order cfg_carry 1 0); vm_compute; split; congruence.
Defined.

Lemma returned_buffer_bytes_witness :
  shaped (image_height cfg_carry) (image_width cfg_carry)
    [[[255; 4; 0]; [255; 4; 0]]; [[255; 4; 0]; [255; 4; 0]]].
Proof.
  apply (returned_buffer_bytes cfg_carry
           [[[255; 4; 0]; [255; 4; 0]]; [[255; 4; 0]; [255; 4; 0]]]).
  vm_compute. reflexivity.
Defined.

(** ** Symmetry of the iteration *)

Lemma func_conj (f : complex -> complex -> complex) (a b c : complex) :
  f = FunctionList.func_z2pc \/ f = FunctionList.func_z3pc ->
  (imag c == 0)%Q -> Ceq a (Cconj b) -> Ceq (f a c) (Cconj (f b c)).
Proof.
  intros [-> | ->] Hc [Er Ei]; destruct a as [ar ai], b as [br bi], c as [cr ci];
    unfold Ceq, Cconj, FunctionList.func_z2pc, FunctionList.func_z3pc, Cadd, Cmul in *;
    cbn [real imag] in *; split; rewrite Er, Ei; try rewrite Hc; ring.
Qed.

Lemma iterate_conj (self : FractalJulia) (z : complex) (n : nat) :
  function self = FunctionList.func_z2pc \/ function self = FunctionList.func_z3pc ->
  (imag (constant self) == 0)%Q ->
  Ceq (iterate self (Cconj z) n) (Cconj (iterate self z n)).
Proof.
  intros F Hc. induction n as [|n IH].
  - split; reflexivity.
  - rewrite !iterate_S. apply func_conj; assumption.
Qed.

Lemma sqdisp_conj (a b z : complex) :
  Ceq a (Cconj b) -> (sqdisp a (Cconj z) == sqdisp b z)%Q.
Proof.
  intros [Er Ei]. unfold sqdisp.
  destruct a as [ar ai], b as [br bi], z as [zr zi].
  unfold Cconj in *. cbn [real imag] in *. rewrite Er, Ei. ring.
Qed.

Lemma Qgtb_proper (a b t : Q) : (a == b)%Q -> Qgtb a t = Qgtb b t.
Proof.
  intros E. destruct (Qgtb b t) eqn:B.
  - apply Qgtb_true. apply Qgtb_true in B. rewrite E. exact B.
  - apply Qgtb_false. apply Qgtb_false in B. rewrite E. exact B.
Qed.

Lemma find_ext {A} (P Q : A -> bool) (l : list A) :
  (forall a, P a = Q a) -> List.find P l = List.find Q l.
Proof.
  intros E. induction l as [|a l IH]; simpl; [reflexivity|].
  rewrite E, IH. reflexivity.
Qed.

(** For either function of [FunctionList] and a real constant, a sample
    and its complex conjugate have the same escape time: the escape
    counts are mirror-symmetric about the real axis. *)
Theorem conjugate_sample_same_escape (self : FractalJulia) (z : complex) :
  function self = FunctionList.func_z2pc \/ function self = FunctionList.func_z3pc ->
  (imag (constant self) == 0)%Q ->
  escape_time self (Cconj z) = escape_time self z.
Proof.
  intros F Hc. unfold escape_time. apply find_ext. intros c.
  unfold exceeds. apply Qgtb_proper, sqdisp_conj, iterate_conj; assumption.
Qed.

Lemma conjugate_sample_same_escape_witness :
  escape_time cfg_carry (Cconj (Complex 0 (-2)))
  = escape_time cfg_carry (Complex 0 (-2)).
Proof.
  apply (conjugate_sample_same_escape cfg_carry (Complex 0 (-2)));
    [left; reflexivity | reflexivity].
Defined.
